(** * A shallow embedding of the walking-skeleton simulation (walk/walk.py)

    The development follows the Python source class by class: [Joint],
    [Bone] and [HumanSkeleton].  Python floats are read as real numbers with
    exact arithmetic; rounding, overflow, NaN and signed zeros are outside
    that model.  Where a property depends on the rounding, the function is
    given a second time over binary64 ([Binary64]), with the arithmetic the
    interpreter runs.  Joint objects are shared between the skeleton's dictionary and the
    bones that reference them, so joints live in a store keyed by the
    dictionary key and bones hold keys into that store.  A read
    [self.joints[k]] is a total lookup: every key the methods read is assigned
    by the constructor, and no method adds or removes a key (see
    [reachable_keys]). *)

From Stdlib Require Import Reals Lra Lia ZArith.
From Stdlib Require Floats.
From stdpp Require Import gmap strings list fin_maps.

#[local] Open Scope R_scope.

(** ** Python's numeric primitives over the reals *)

#[global] Instance Rlt_decision (a b : R) : Decision (a < b) := Rlt_dec a b.
#[global] Instance Rgt_decision (a b : R) : Decision (a > b) := Rgt_dec a b.
#[global] Instance Req_decision : EqDecision R := Req_dec_T.
#[global] Instance Rle_decision (a b : R) : Decision (a <= b) := Rle_dec a b.

(** [max(a, b)]: the first argument unless the second is strictly larger. *)
Definition py_max (a b : R) : R := if decide (b > a) then b else a.

(** [min(a, b)]: the first argument unless the second is strictly smaller. *)
Definition py_min (a b : R) : R := if decide (b < a) then b else a.

(** [a % m] on floats: [a - floor(a / m) * m]. *)
Definition py_mod (a m : R) : R := a - IZR (Int_part (a / m)) * m.

(** [math.atan2(y, x)], the angle of the point (x, y) in [-pi, pi]. *)
Definition atan2 (y x : R) : R :=
  if decide (0 < x) then atan (y / x)
  else if decide (x < 0) then
         (if decide (y < 0) then atan (y / x) - PI else atan (y / x) + PI)
  else if decide (0 < y) then PI / 2
  else if decide (y < 0) then - (PI / 2)
  else 0.

(** ** Module-level constants *)

Definition HEIGHT : R := 800.
Definition GRAVITY : R := 600.
Definition GROUND_Y : R := HEIGHT - 100.
Definition FRICTION : R := 0.85.

(** ** class Joint *)

Module Joint.

Record t : Type := mk {
  x : R;
  y : R;
  vx : R;
  vy : R;
  name : string;
  angle_limits : option (R * R)
}.

(** [Joint(x, y, name, angle_limits)]: velocities start at zero. *)
Definition init (x0 y0 : R) (nm : string) (lim : option (R * R)) : t :=
  mk x0 y0 0 0 nm lim.

Definition set_x (v : R) (j : t) : t := mk v (y j) (vx j) (vy j) (name j) (angle_limits j).
Definition set_y (v : R) (j : t) : t := mk (x j) v (vx j) (vy j) (name j) (angle_limits j).
Definition set_vx (v : R) (j : t) : t := mk (x j) (y j) v (vy j) (name j) (angle_limits j).
Definition set_vy (v : R) (j : t) : t := mk (x j) (y j) (vx j) v (name j) (angle_limits j).

(** [Joint.update(dt)], statement by statement. *)
Definition update (dt : R) (j : t) : t :=
  let j := set_vx (vx j * 0.95) j in
  let j := set_vy (vy j * 0.95) j in
  let j := set_x (x j + vx j * dt) j in
  let j := set_y (y j + vy j * dt) j in
  if decide (y j > GROUND_Y) then
    let j := set_y GROUND_Y j in
    let j := set_vy 0 j in
    set_vx (vx j * FRICTION) j
  else j.

(** [Joint.apply_force(fx, fy)]: a direct velocity increment. *)
Definition apply_force (fx fy : R) (j : t) : t :=
  let j := set_vx (vx j + fx) j in
  set_vy (vy j + fy) j.

End Joint.

#[global] Instance Joint_inhabited : Inhabited Joint.t :=
  populate (Joint.init 0 0 "" None).

(** The joint store: the objects the skeleton's dictionary owns, by key. *)
Abbreviation Store := (gmap string Joint.t).

(** ** class Bone *)

(** The two normalisation loops of [apply_angle_constraint]:
    [while a > pi: a -= 2*pi] and [while a < -pi: a += 2*pi], each run with
    a bound on its number of iterations. *)
Fixpoint wrap_above (fuel : nat) (a : R) : R :=
  match fuel with
  | O => a
  | S n => if decide (a > PI) then wrap_above n (a - 2 * PI) else a
  end.

Fixpoint wrap_below (fuel : nat) (a : R) : R :=
  match fuel with
  | O => a
  | S n => if decide (a < - PI) then wrap_below n (a + 2 * PI) else a
  end.

(** Iterations after which each loop has certainly left. *)
Definition fuel_above (a : R) : nat := Z.to_nat (up ((a - PI) / (2 * PI))).
Definition fuel_below (a : R) : nat := Z.to_nat (up ((- PI - a) / (2 * PI))).

Definition normalize_angle (a : R) : R :=
  let a := wrap_above (fuel_above a) a in
  wrap_below (fuel_below a) a.

Module Bone.

Record t : Type := mk {
  joint1 : string;
  joint2 : string;
  rest_length : R;
  name : string;
  mass : R
}.

(** Euclidean distance between the joints stored under two keys. *)
Definition distance (σ : Store) (h1 h2 : string) : R :=
  let dx := Joint.x (σ !!! h2) - Joint.x (σ !!! h1) in
  let dy := Joint.y (σ !!! h2) - Joint.y (σ !!! h1) in
  sqrt (dx * dx + dy * dy).

(** [Bone.calculate_distance()]. *)
Definition calculate_distance (b : t) (σ : Store) : R :=
  distance σ (joint1 b) (joint2 b).

(** [Bone(joint1, joint2, mass, length, name)]; [length] is [None] when the
    argument is left out.  [length if length else self.calculate_distance()]
    tests the truth value of [length]: [None] and [0.0] are both false. *)
Definition init (σ : Store) (j1 j2 : string) (m : R) (length : option R)
    (nm : string) : t :=
  let rest :=
    match length with
    | Some l => if decide (l = 0) then distance σ j1 j2 else l
    | None => distance σ j1 j2
    end in
  mk j1 j2 rest nm m.

(** [Bone.apply_length_constraint()]: the four in-place position updates are
    four successive writes to the store. *)
Definition apply_length_constraint (b : t) (σ : Store) : Store :=
  let dx := Joint.x (σ !!! joint2 b) - Joint.x (σ !!! joint1 b) in
  let dy := Joint.y (σ !!! joint2 b) - Joint.y (σ !!! joint1 b) in
  let current_length := sqrt (dx * dx + dy * dy) in
  if decide (current_length > 0) then
    let difference := current_length - rest_length b in
    let percent := difference / current_length / 2 in
    let offset_x := dx * percent in
    let offset_y := dy * percent in
    let σ := alter (λ j, Joint.set_x (Joint.x j + offset_x) j) (joint1 b) σ in
    let σ := alter (λ j, Joint.set_y (Joint.y j + offset_y) j) (joint1 b) σ in
    let σ := alter (λ j, Joint.set_x (Joint.x j - offset_x) j) (joint2 b) σ in
    alter (λ j, Joint.set_y (Joint.y j - offset_y) j) (joint2 b) σ
  else σ.

(** [Bone.apply_angle_constraint(parent_bone)]. *)
Definition apply_angle_constraint (b : t) (parent_bone : option t)
    (σ : Store) : Store :=
  match Joint.angle_limits (σ !!! joint2 b), parent_bone with
  | Some (min_angle, max_angle), Some parent =>
    let dx1 := Joint.x (σ !!! joint1 b) - Joint.x (σ !!! joint1 parent) in
    let dy1 := Joint.y (σ !!! joint1 b) - Joint.y (σ !!! joint1 parent) in
    let dx2 := Joint.x (σ !!! joint2 b) - Joint.x (σ !!! joint1 b) in
    let dy2 := Joint.y (σ !!! joint2 b) - Joint.y (σ !!! joint1 b) in
    if decide (dx1 ≠ 0 ∨ dy1 ≠ 0) then
      let parent_angle := atan2 dy1 dx1 in
      let current_angle := atan2 dy2 dx2 in
      let relative_angle := normalize_angle (current_angle - parent_angle) in
      let push (target_angle correction_force : R) : Store :=
        let target_x := Joint.x (σ !!! joint1 b) + rest_length b * cos target_angle in
        let target_y := Joint.y (σ !!! joint1 b) + rest_length b * sin target_angle in
        let force_x := (target_x - Joint.x (σ !!! joint2 b)) * correction_force in
        let force_y := (target_y - Joint.y (σ !!! joint2 b)) * correction_force in
        alter (Joint.apply_force force_x force_y) (joint2 b) σ in
      if decide (relative_angle < min_angle) then
        push (parent_angle + min_angle) 1.5
      else if decide (relative_angle > max_angle) then
        push (parent_angle + max_angle) 1.5
      else σ
    else σ
  | _, _ => σ
  end.

End Bone.

(** ** class HumanSkeleton *)

Module HumanSkeleton.

Record t : Type := mk {
  scale : R;
  head_size : R;
  torso_length : R;
  upper_arm_length : R;
  lower_arm_length : R;
  upper_leg_length : R;
  lower_leg_length : R;
  foot_length : R;
  body_mass : R;
  joints : Store;
  bones : list Bone.t;
  walking : bool;
  walk_cycle_time : R;
  walk_speed : R;
  step_length : R;
  standing_balance_force : R;
  posture_force : R
}.

Definition set_joints (σ : Store) (s : t) : t :=
  mk (scale s) (head_size s) (torso_length s) (upper_arm_length s)
     (lower_arm_length s) (upper_leg_length s) (lower_leg_length s)
     (foot_length s) (body_mass s) σ (bones s) (walking s)
     (walk_cycle_time s) (walk_speed s) (step_length s)
     (standing_balance_force s) (posture_force s).

Definition set_bones (bs : list Bone.t) (s : t) : t :=
  mk (scale s) (head_size s) (torso_length s) (upper_arm_length s)
     (lower_arm_length s) (upper_leg_length s) (lower_leg_length s)
     (foot_length s) (body_mass s) (joints s) bs (walking s)
     (walk_cycle_time s) (walk_speed s) (step_length s)
     (standing_balance_force s) (posture_force s).

Definition set_walking (w : bool) (s : t) : t :=
  mk (scale s) (head_size s) (torso_length s) (upper_arm_length s)
     (lower_arm_length s) (upper_leg_length s) (lower_leg_length s)
     (foot_length s) (body_mass s) (joints s) (bones s) w
     (walk_cycle_time s) (walk_speed s) (step_length s)
     (standing_balance_force s) (posture_force s).

Definition set_walk_cycle_time (c : R) (s : t) : t :=
  mk (scale s) (head_size s) (torso_length s) (upper_arm_length s)
     (lower_arm_length s) (upper_leg_length s) (lower_leg_length s)
     (foot_length s) (body_mass s) (joints s) (bones s) (walking s)
     c (walk_speed s) (step_length s)
     (standing_balance_force s) (posture_force s).

(** [self.joints[k] = Joint(x, y, k, angle_limits)]. *)
Definition new_joint (k : string) (x0 y0 : R) (lim : option (R * R))
    (s : t) : t :=
  set_joints (<[k := Joint.init x0 y0 k lim]> (joints s)) s.

(** [HumanSkeleton.create_joints(center_x, center_y)]. *)
Definition create_joints (center_x center_y : R) (s : t) : t :=
  let s := new_joint "head" center_x
             (center_y - torso_length s / 2 - head_size s) None s in
  let s := new_joint "neck" center_x (center_y - torso_length s / 2)
             (Some (- PI / 16, PI / 16)) s in
  let s := new_joint "chest" center_x (center_y - torso_length s / 4)
             (Some (- PI / 6, PI / 6)) s in
  let s := new_joint "waist" center_x center_y
             (Some (- PI / 6, PI / 6)) s in
  let s := new_joint "pelvis" center_x (center_y + torso_length s / 4) None s in
  let s := new_joint "left_shoulder" (center_x - 15)
             (center_y - torso_length s / 4) (Some (- PI / 2, PI)) s in
  let s := new_joint "left_elbow" (center_x - 15)
             (center_y - torso_length s / 4 + upper_arm_length s)
             (Some (- PI / 6, PI * 5 / 6)) s in
  let s := new_joint "left_hand" (center_x - 15)
             (center_y - torso_length s / 4 + upper_arm_length s
              + lower_arm_length s)
             (Some (- PI / 3, PI / 3)) s in
  let s := new_joint "right_shoulder" (center_x + 15)
             (center_y - torso_length s / 4) (Some (- PI, PI / 2)) s in
  let s := new_joint "right_elbow" (center_x + 15)
             (center_y - torso_length s / 4 + upper_arm_length s)
             (Some (- PI * 5 / 6, PI / 6)) s in
  let s := new_joint "right_hand" (center_x + 15)
             (center_y - torso_length s / 4 + upper_arm_length s
              + lower_arm_length s)
             (Some (- PI / 3, PI / 3)) s in
  let s := new_joint "left_hip" (center_x - 10)
             (center_y + torso_length s / 4) (Some (- PI / 3, PI / 3)) s in
  let s := new_joint "left_knee" (center_x - 10)
             (center_y + torso_length s / 4 + upper_leg_length s)
             (Some (- PI * 2 / 3, 0)) s in
  let s := new_joint "left_ankle" (center_x - 10)
             (center_y + torso_length s / 4 + upper_leg_length s
              + lower_leg_length s)
             (Some (- PI / 3, PI / 3)) s in
  let s := new_joint "left_foot" (center_x - 10 + foot_length s / 2)
             (center_y + torso_length s / 4 + upper_leg_length s
              + lower_leg_length s) None s in
  let s := new_joint "right_hip" (center_x + 10)
             (center_y + torso_length s / 4) (Some (- PI / 3, PI / 3)) s in
  let s := new_joint "right_knee" (center_x + 10)
             (center_y + torso_length s / 4 + upper_leg_length s)
             (Some (- PI * 2 / 3, 0)) s in
  let s := new_joint "right_ankle" (center_x + 10)
             (center_y + torso_length s / 4 + upper_leg_length s
              + lower_leg_length s)
             (Some (- PI / 3, PI / 3)) s in
  new_joint "right_foot" (center_x + 10 + foot_length s / 2)
    (center_y + torso_length s / 4 + upper_leg_length s
     + lower_leg_length s) None s.

(** The dictionary literal of [calculate_segment_mass]. *)
Definition mass_percentages : gmap string R :=
  list_to_map
    [ ("head", 0.081); ("neck", 0.014);
      ("upper_spine", 0.158); ("mid_spine", 0.102); ("lower_spine", 0.097);
      ("left_clavicle", 0.028); ("right_clavicle", 0.028);
      ("left_upper_arm", 0.028); ("right_upper_arm", 0.028);
      ("left_lower_arm", 0.022); ("right_lower_arm", 0.022);
      ("left_pelvis", 0.100); ("right_pelvis", 0.100);
      ("left_upper_leg", 0.100); ("right_upper_leg", 0.100);
      ("left_lower_leg", 0.0465); ("right_lower_leg", 0.0465);
      ("left_foot", 0.0145); ("right_foot", 0.0145) ].

(** [HumanSkeleton.calculate_segment_mass(segment_name)]:
    [mass_percentages.get(segment_name, 0.01)] times the body mass. *)
Definition calculate_segment_mass (s : t) (segment_name : string) : R :=
  body_mass s * default 0.01 (mass_percentages !! segment_name).

(** The local helper [create_bone(joint1, joint2, name)] of [create_bones]. *)
Definition create_bone (s : t) (j1 j2 : string) (nm : string) : Bone.t :=
  let dx := Joint.x (joints s !!! j2) - Joint.x (joints s !!! j1) in
  let dy := Joint.y (joints s !!! j2) - Joint.y (joints s !!! j1) in
  let length := sqrt (dx * dx + dy * dy) in
  let mass := calculate_segment_mass s nm in
  Bone.init (joints s) j1 j2 mass (Some length) nm.

(** [self.bones.append(create_bone(self.joints[k1], self.joints[k2], name))]. *)
Definition append_bone (k1 k2 nm : string) (s : t) : t :=
  set_bones (bones s ++ [create_bone s k1 k2 nm]) s.

(** [HumanSkeleton.create_bones()]. *)
Definition create_bones (s : t) : t :=
  let s := append_bone "head" "neck" "neck" s in
  let s := append_bone "neck" "chest" "upper_spine" s in
  let s := append_bone "chest" "waist" "mid_spine" s in
  let s := append_bone "waist" "pelvis" "lower_spine" s in
  let s := append_bone "chest" "left_shoulder" "left_clavicle" s in
  let s := append_bone "left_shoulder" "left_elbow" "left_upper_arm" s in
  let s := append_bone "left_elbow" "left_hand" "left_lower_arm" s in
  let s := append_bone "chest" "right_shoulder" "right_clavicle" s in
  let s := append_bone "right_shoulder" "right_elbow" "right_upper_arm" s in
  let s := append_bone "right_elbow" "right_hand" "right_lower_arm" s in
  let s := append_bone "pelvis" "left_hip" "left_pelvis" s in
  let s := append_bone "left_hip" "left_knee" "left_upper_leg" s in
  let s := append_bone "left_knee" "left_ankle" "left_lower_leg" s in
  let s := append_bone "left_ankle" "left_foot" "left_foot" s in
  let s := append_bone "pelvis" "right_hip" "right_pelvis" s in
  let s := append_bone "right_hip" "right_knee" "right_upper_leg" s in
  let s := append_bone "right_knee" "right_ankle" "right_lower_leg" s in
  append_bone "right_ankle" "right_foot" "right_foot" s.

(** [HumanSkeleton(x, y, scale)].  The attributes [__init__] assigns after
    the two construction calls are constants that neither call reads, so the
    record is created with them in place. *)
Definition init (x0 y0 scale0 : R) : t :=
  let s := mk scale0 (20 * scale0) (120 * scale0) (60 * scale0)
              (55 * scale0) (80 * scale0) (75 * scale0) (25 * scale0)
              70 ∅ [] false 0 2 (40 * scale0) 100 50 in
  let s := create_joints x0 y0 s in
  create_bones s.

(** [self.joints[k].apply_force(fx, fy)]. *)
Definition force_on (k : string) (fx fy : R) (s : t) : t :=
  set_joints (alter (Joint.apply_force fx fy) k (joints s)) s.

(** [HumanSkeleton.apply_walking_forces()]. *)
Definition apply_walking_forces (s : t) : t :=
  let cycle_phase := py_mod (walk_cycle_time s) (2 * PI) in
  let leg_swing_amplitude := 30 * scale s in
  let arm_swing_amplitude := 20 * scale s in
  let vertical_bounce := 5 * scale s in
  let left_phase := cycle_phase in
  let left_leg_offset_x := sin left_phase * leg_swing_amplitude in
  let left_leg_lift := py_max 0 (sin left_phase * 15 * scale s) in
  let right_phase := cycle_phase + PI in
  let right_leg_offset_x := sin right_phase * leg_swing_amplitude in
  let right_leg_lift := py_max 0 (sin right_phase * 15 * scale s) in
  let target_left_foot_x :=
    Joint.x (joints s !!! "pelvis") - 10 + left_leg_offset_x in
  let target_left_foot_y := GROUND_Y - left_leg_lift in
  let target_right_foot_x :=
    Joint.x (joints s !!! "pelvis") + 10 + right_leg_offset_x in
  let target_right_foot_y := GROUND_Y - right_leg_lift in
  let foot_force_strength := 10 in
  let dx_left := target_left_foot_x - Joint.x (joints s !!! "left_foot") in
  let dy_left := target_left_foot_y - Joint.y (joints s !!! "left_foot") in
  let force_x := py_max (-100) (py_min 100 (dx_left * foot_force_strength)) in
  let force_y := py_max (-100) (py_min 100 (dy_left * foot_force_strength)) in
  let s := force_on "left_foot" force_x force_y s in
  let dx_right := target_right_foot_x - Joint.x (joints s !!! "right_foot") in
  let dy_right := target_right_foot_y - Joint.y (joints s !!! "right_foot") in
  let force_x := py_max (-100) (py_min 100 (dx_right * foot_force_strength)) in
  let force_y := py_max (-100) (py_min 100 (dy_right * foot_force_strength)) in
  let s := force_on "right_foot" force_x force_y s in
  let left_arm_swing := sin (cycle_phase + PI) * arm_swing_amplitude in
  let right_arm_swing := sin cycle_phase * arm_swing_amplitude in
  let left_force := py_max (-30) (py_min 30 (left_arm_swing * 2)) in
  let right_force := py_max (-30) (py_min 30 (right_arm_swing * 2)) in
  let s := force_on "left_hand" left_force 0 s in
  let s := force_on "right_hand" right_force 0 s in
  let forward_force := 5 * scale s in
  let s := force_on "pelvis" forward_force 0 s in
  let bounce := sin (cycle_phase * 2) * vertical_bounce in
  let bounce_force := py_max (-20) (py_min 20 (bounce * 2)) in
  force_on "pelvis" 0 bounce_force s.

Definition start_walking (s : t) : t := set_walking true s.
Definition stop_walking (s : t) : t := set_walking false s.

(** The body of the loop over [['left_foot', 'right_foot']] in
    [maintain_standing_posture]. *)
Definition ground_foot (s : t) (foot_name : string) : t :=
  if decide (Joint.y (joints s !!! foot_name) < GROUND_Y) then
    let force_y :=
      (GROUND_Y - Joint.y (joints s !!! foot_name)) * standing_balance_force s in
    let force_y := py_min force_y 100 in
    force_on foot_name 0 force_y s
  else s.

(** [HumanSkeleton.maintain_standing_posture()]. *)
Definition maintain_standing_posture (s : t) : t :=
  let s := foldl ground_foot s ["left_foot"; "right_foot"] in
  let target_pelvis_x :=
    (Joint.x (joints s !!! "left_foot") + Joint.x (joints s !!! "right_foot")) / 2 in
  let target_pelvis_y :=
    GROUND_Y - upper_leg_length s - lower_leg_length s - 20 in
  let force_x := (target_pelvis_x - Joint.x (joints s !!! "pelvis")) * posture_force s in
  let force_y := (target_pelvis_y - Joint.y (joints s !!! "pelvis")) * posture_force s in
  let force_x := py_max (-300) (py_min 300 force_x) in
  let force_y := py_max (-300) (py_min 300 force_y) in
  let s := force_on "pelvis" force_x force_y s in
  let target_chest_x := Joint.x (joints s !!! "pelvis") in
  let target_chest_y := Joint.y (joints s !!! "pelvis") - torso_length s / 2 in
  let force_x :=
    (target_chest_x - Joint.x (joints s !!! "chest")) * posture_force s * 0.3 in
  let force_y :=
    (target_chest_y - Joint.y (joints s !!! "chest")) * posture_force s * 0.3 in
  let force_x := py_max (-50) (py_min 50 force_x) in
  let force_y := py_max (-50) (py_min 50 force_y) in
  let s := force_on "chest" force_x force_y s in
  let target_head_x := Joint.x (joints s !!! "chest") in
  let target_head_y :=
    Joint.y (joints s !!! "chest") - torso_length s / 2 - head_size s in
  let error_x := target_head_x - Joint.x (joints s !!! "head") in
  let error_y := target_head_y - Joint.y (joints s !!! "head") in
  let dead_zone := 2 in
  let position_error_magnitude := sqrt (error_x * error_x + error_y * error_y) in
  if decide (position_error_magnitude > dead_zone) then
    let force_x := error_x * posture_force s * 0.1 in
    let force_y := error_y * posture_force s * 0.1 in
    let force_x := py_max (-20) (py_min 20 force_x) in
    let force_y := py_max (-20) (py_min 20 force_y) in
    force_on "head" force_x force_y s
  else s.

(** The body of the loop of [apply_gravity_to_bones]. *)
Definition gravity_on_bone (dt : R) (σ : Store) (bone : Bone.t) : Store :=
  let gravity_force := Bone.mass bone * GRAVITY in
  let σ := alter (Joint.apply_force 0 (gravity_force * 0.5 * dt)) (Bone.joint1 bone) σ in
  alter (Joint.apply_force 0 (gravity_force * 0.5 * dt)) (Bone.joint2 bone) σ.

(** [HumanSkeleton.apply_gravity_to_bones(dt)]. *)
Definition apply_gravity_to_bones (dt : R) (s : t) : t :=
  set_joints (foldl (gravity_on_bone dt) (joints s) (bones s)) s.

(** The dictionary literal of [apply_angle_constraints], in the order of its
    items. *)
Definition bone_hierarchy : list (string * (string * string)) :=
  [ ("left_upper_arm", ("left_clavicle", "left_elbow"));
    ("left_lower_arm", ("left_upper_arm", "left_hand"));
    ("right_upper_arm", ("right_clavicle", "right_elbow"));
    ("right_lower_arm", ("right_upper_arm", "right_hand"));
    ("left_upper_leg", ("left_pelvis", "left_knee"));
    ("left_lower_leg", ("left_upper_leg", "left_ankle"));
    ("right_upper_leg", ("right_pelvis", "right_knee"));
    ("right_lower_leg", ("right_upper_leg", "right_ankle"));
    ("upper_spine", ("lower_spine", "neck"));
    ("neck", ("upper_spine", "head")) ].

(** [{bone.name: bone for bone in self.bones}]: a later bone of the same
    name replaces an earlier one. *)
Definition bone_dict (bs : list Bone.t) : gmap string Bone.t :=
  foldl (λ d bone, <[Bone.name bone := bone]> d) ∅ bs.

(** The body of the loop of [apply_angle_constraints]. *)
Definition constrain_entry (d : gmap string Bone.t) (σ : Store)
    (entry : string * (string * string)) : Store :=
  let '(child_name, (parent_name, _)) := entry in
  match d !! child_name, d !! parent_name with
  | Some child_bone, Some parent_bone =>
      Bone.apply_angle_constraint child_bone (Some parent_bone) σ
  | _, _ => σ
  end.

(** [HumanSkeleton.apply_angle_constraints()]. *)
Definition apply_angle_constraints (s : t) : t :=
  let d := bone_dict (bones s) in
  set_joints (foldl (constrain_entry d) (joints s) bone_hierarchy) s.

(** The body of [for _ in range(3)] in [update]. *)
Definition relax_once (s : t) : t :=
  let s :=
    set_joints
      (foldl (λ σ bone, Bone.apply_length_constraint bone σ) (joints s) (bones s))
      s in
  apply_angle_constraints s.

(** [HumanSkeleton.update(dt)]. *)
Definition update (dt : R) (s : t) : t :=
  let s :=
    if walking s then
      let s := set_walk_cycle_time (walk_cycle_time s + dt * walk_speed s) s in
      apply_walking_forces s
    else maintain_standing_posture s in
  let s := set_joints (Joint.update dt <$> joints s) s in
  let s := apply_gravity_to_bones dt s in
  Nat.iter 3 relax_once s.

End HumanSkeleton.

(** * Vocabulary of the properties *)

(** The joint [j] moved by [(ox, oy)], velocity untouched. *)
Definition moved (ox oy : R) (j : Joint.t) : Joint.t :=
  Joint.mk (Joint.x j + ox) (Joint.y j + oy) (Joint.vx j) (Joint.vy j)
    (Joint.name j) (Joint.angle_limits j).

(** The symmetric clamp [max(-c, min(c, v))]. *)
Definition clamp (c v : R) : R := Rmax (- c) (Rmin c v).

(** What the standing controller does to one foot: a foot whose [y] is
    below the ground line value gets [min((GROUND_Y - y) * gain, 100)] added
    to its vertical velocity; any other foot is left as it is. *)
Definition foot_rule (gain : R) (j : Joint.t) : Joint.t :=
  if decide (Joint.y j < GROUND_Y)
  then Joint.apply_force 0 (py_min ((GROUND_Y - Joint.y j) * gain) 100) j
  else j.

(** A vertical velocity increment. *)
Definition lift_vy (dv : R) (j : Joint.t) : Joint.t :=
  Joint.mk (Joint.x j) (Joint.y j) (Joint.vx j) (Joint.vy j + dv)
    (Joint.name j) (Joint.angle_limits j).

(** The sum of the masses of a list of bones. *)
Definition total_mass (bs : list Bone.t) : R :=
  foldr Rplus 0 (Bone.mass <$> bs).

(** The keys of the joint dictionary, in insertion order. *)
Definition joint_names : list string :=
  [ "head"; "neck"; "chest"; "waist"; "pelvis";
    "left_shoulder"; "left_elbow"; "left_hand";
    "right_shoulder"; "right_elbow"; "right_hand";
    "left_hip"; "left_knee"; "left_ankle"; "left_foot";
    "right_hip"; "right_knee"; "right_ankle"; "right_foot" ].

(** The bones in list order: first joint, second joint, name. *)
Definition bone_layout : list (string * string * string) :=
  [ ("head", "neck", "neck"); ("neck", "chest", "upper_spine");
    ("chest", "waist", "mid_spine"); ("waist", "pelvis", "lower_spine");
    ("chest", "left_shoulder", "left_clavicle");
    ("left_shoulder", "left_elbow", "left_upper_arm");
    ("left_elbow", "left_hand", "left_lower_arm");
    ("chest", "right_shoulder", "right_clavicle");
    ("right_shoulder", "right_elbow", "right_upper_arm");
    ("right_elbow", "right_hand", "right_lower_arm");
    ("pelvis", "left_hip", "left_pelvis");
    ("left_hip", "left_knee", "left_upper_leg");
    ("left_knee", "left_ankle", "left_lower_leg");
    ("left_ankle", "left_foot", "left_foot");
    ("pelvis", "right_hip", "right_pelvis");
    ("right_hip", "right_knee", "right_upper_leg");
    ("right_knee", "right_ankle", "right_lower_leg");
    ("right_ankle", "right_foot", "right_foot") ].

(** First joint, second joint and name of each bone of a list. *)
Definition layout_of (bs : list Bone.t) : list (string * string * string) :=
  (λ b, (Bone.joint1 b, Bone.joint2 b, Bone.name b)) <$> bs.



(** The vertical force C7 states for the left foot, in its own words: the
    lift is [max(0, sin(phase)) * 15 * scale]. *)
Definition claimed_left_foot_fy (s : HumanSkeleton.t) : R :=
  let phase := py_mod (HumanSkeleton.walk_cycle_time s) (2 * PI) in
  let target_y := GROUND_Y - Rmax 0 (sin phase) * 15 * HumanSkeleton.scale s in
  clamp 100 (10 * (target_y - Joint.y (HumanSkeleton.joints s !!! "left_foot"))).

(** The update in the words of C1: the four phases as functions of the joint
    store and the fixed bone list. *)

(** A bone's gravity increment for each of its two ends. *)
Definition gravity_increment (dt : R) (b : Bone.t) : R :=
  Bone.mass b * GRAVITY * 0.5 * dt.

(** Add the velocity [(0, dv)] to the joint under [k]. *)
Definition add_velocity_y (k : string) (dv : R) (σ : Store) : Store :=
  alter (Joint.apply_force 0 dv) k σ.

(** Gravity: bone after bone, the increment to the first end, then to the
    second. *)
Fixpoint gravity_pass (dt : R) (bs : list Bone.t) (σ : Store) : Store :=
  match bs with
  | [] => σ
  | b :: bs' =>
      gravity_pass dt bs'
        (add_velocity_y (Bone.joint2 b) (gravity_increment dt b)
           (add_velocity_y (Bone.joint1 b) (gravity_increment dt b) σ))
  end.

(** What gravity adds in total to the vertical velocity of the joint [k]. *)
Fixpoint gravity_share (dt : R) (bs : list Bone.t) (k : string) : R :=
  match bs with
  | [] => 0
  | b :: bs' =>
      (if decide (Bone.joint1 b = k) then gravity_increment dt b else 0)
      + (if decide (Bone.joint2 b = k) then gravity_increment dt b else 0)
      + gravity_share dt bs' k
  end.

(** The distance constraint of every bone, in list order. *)
Fixpoint distance_pass (bs : list Bone.t) (σ : Store) : Store :=
  match bs with
  | [] => σ
  | b :: bs' => distance_pass bs' (Bone.apply_length_constraint b σ)
  end.

(** The bone a name stands for: the last one of that name in the list. *)
Definition find_bone (nm : string) (bs : list Bone.t) : option Bone.t :=
  last (filter (λ b, Bone.name b = nm) bs).

(** The ten (child, parent) pairs of the hierarchy table, in table order. *)
Definition hierarchy_pairs : list (string * string) :=
  [ ("left_upper_arm", "left_clavicle"); ("left_lower_arm", "left_upper_arm");
    ("right_upper_arm", "right_clavicle"); ("right_lower_arm", "right_upper_arm");
    ("left_upper_leg", "left_pelvis"); ("left_lower_leg", "left_upper_leg");
    ("right_upper_leg", "right_pelvis"); ("right_lower_leg", "right_upper_leg");
    ("upper_spine", "lower_spine"); ("neck", "upper_spine") ].

(** The angle constraint of one table entry: the child bone against its
    tabulated parent, when both names stand for bones. *)
Definition angle_step (bs : list Bone.t) (entry : string * string) (σ : Store)
    : Store :=
  match find_bone entry.1 bs, find_bone entry.2 bs with
  | Some child, Some parent =>
      Bone.apply_angle_constraint child (Some parent) σ
  | _, _ => σ
  end.

(** The angle constraints of the table entries, in table order. *)
Fixpoint angle_pass (bs : list Bone.t) (pairs : list (string * string))
    (σ : Store) : Store :=
  match pairs with
  | [] => σ
  | entry :: rest => angle_pass bs rest (angle_step bs entry σ)
  end.

(** One relaxation iteration: every distance constraint, then every angle
    constraint of the table. *)
Definition relaxation (bs : list Bone.t) (σ : Store) : Store :=
  angle_pass bs hierarchy_pairs (distance_pass bs σ).

(** The force generator that runs: the gait with the phase advanced when
    walking, the balance controller otherwise. *)
Definition force_phase (dt : R) (s : HumanSkeleton.t) : HumanSkeleton.t :=
  if HumanSkeleton.walking s then
    HumanSkeleton.apply_walking_forces
      (HumanSkeleton.set_walk_cycle_time
         (HumanSkeleton.walk_cycle_time s + dt * HumanSkeleton.walk_speed s) s)
  else HumanSkeleton.maintain_standing_posture s.

(** The skeleton with everything an update may write blanked out: what is
    left is fixed at construction. *)
Definition fixed_part (s : HumanSkeleton.t) : HumanSkeleton.t :=
  HumanSkeleton.set_walk_cycle_time 0
    (HumanSkeleton.set_walking false (HumanSkeleton.set_joints ∅ s)).

(** The states a skeleton goes through: built by the constructor, then any
    sequence of updates and of start and stop signals. *)
Inductive reachable : HumanSkeleton.t -> Prop :=
  | reach_init (x0 y0 scale0 : R) :
      reachable (HumanSkeleton.init x0 y0 scale0)
  | reach_update (dt : R) (s : HumanSkeleton.t) :
      reachable s -> reachable (HumanSkeleton.update dt s)
  | reach_start (s : HumanSkeleton.t) :
      reachable s -> reachable (HumanSkeleton.start_walking s)
  | reach_stop (s : HumanSkeleton.t) :
      reachable s -> reachable (HumanSkeleton.stop_walking s).

(** The foot rule in the words of C8, with the directions of the screen
    that its pelvis clause uses ("a fixed height above the ground" is
    [GROUND_Y - height], so above is the smaller [y]): a foot below ground
    level, [y > GROUND_Y], gets an upward force, a negative increment of
    [vy], of 100 times its distance from the ground line, at most 100; any
    other foot gets none. *)
Definition claimed_foot_rule (j : Joint.t) : Joint.t :=
  if decide (Joint.y j > GROUND_Y)
  then Joint.apply_force 0 (- Rmin (100 * (Joint.y j - GROUND_Y)) 100) j
  else j.

(** ** The distance constraint in binary64

    Python's [float] is IEEE 754 binary64, and so is Rocq's primitive
    [float]: [+], [-], [*], [/] and [sqrt] round to nearest, ties to even,
    in both.  This is [Bone.apply_length_constraint] once more, statement by
    statement, on two joints that are distinct objects, with the arithmetic
    the interpreter runs.  It serves where a property of the real-number
    model has to be compared with what the rounding code computes. *)
Module Binary64.
Import Floats.
#[local] Open Scope float_scope.

Record joint : Type := mk { x : float; y : float; vx : float; vy : float }.

Definition apply_length_constraint (rest_length : float) (joint1 joint2 : joint)
    : joint * joint :=
  let dx := x joint2 - x joint1 in
  let dy := y joint2 - y joint1 in
  let current_length := PrimFloat.sqrt (dx * dx + dy * dy) in
  if PrimFloat.ltb 0 current_length then
    let difference := current_length - rest_length in
    let percent := difference / current_length / 2 in
    let offset_x := dx * percent in
    let offset_y := dy * percent in
    let joint1 := mk (x joint1 + offset_x) (y joint1) (vx joint1) (vy joint1) in
    let joint1 := mk (x joint1) (y joint1 + offset_y) (vx joint1) (vy joint1) in
    let joint2 := mk (x joint2 - offset_x) (y joint2) (vx joint2) (vy joint2) in
    let joint2 := mk (x joint2) (y joint2 - offset_y) (vx joint2) (vy joint2) in
    (joint1, joint2)
  else (joint1, joint2).

(** The midpoint of two joints on the horizontal axis, as binary64 computes
    it.  The division by 2 is exact and the sum is the rounding of the exact
    sum, so two pairs whose computed midpoints differ have different exact
    midpoints. *)
Definition midpoint_x (joint1 joint2 : joint) : float :=
  (x joint1 + x joint2) / 2.

(** Joints at (0, 0) and (1, 1), at rest, and a rest length of 10. *)
Definition joint_p : joint := mk 0 0 0 0.
Definition joint_q : joint := mk 1 1 0 0.
Definition rest_pq : float := 10.

End Binary64.

(** * Example inputs *)

(** Two joints at (0, 0) and (3, 4) under the keys "a" and "b", and a bone
    of rest length 1 between them: a 3-4-5 triangle. *)
Definition joint_a : Joint.t := Joint.init 0 0 "a" None.
Definition joint_b : Joint.t := Joint.init 3 4 "b" None.
Definition store_ab : Store := <["a" := joint_a]> (<["b" := joint_b]> ∅).
Definition bone_ab : Bone.t := Bone.mk "a" "b" 1 "ab" 1.

(** Two distinct joints that sit on the same point (1, 2). *)
Definition joint_c : Joint.t := Joint.init 1 2 "c" None.
Definition joint_d : Joint.t := Joint.init 1 2 "d" None.
Definition store_cd : Store := <["c" := joint_c]> (<["d" := joint_d]> ∅).



(** A skeleton built with scale -1 (mirrored), walking, three quarters
    through its gait cycle, with its left foot 5 units short of the ground
    line. *)
Definition skeleton_mirrored : HumanSkeleton.t :=
  let s := HumanSkeleton.start_walking (HumanSkeleton.init 600 400 (-1)) in
  let s := HumanSkeleton.set_walk_cycle_time (3 * (PI / 2)) s in
  HumanSkeleton.set_joints
    (<["left_foot" := Joint.init 577.5 695 "left_foot" None]>
       (HumanSkeleton.joints s)) s.

(** * Properties *)

(** ** Numeric helpers *)

Lemma GROUND_Y_val : GROUND_Y = 700.
Proof. unfold GROUND_Y, HEIGHT. lra. Qed.

Lemma py_max_Rmax (a b : R) : py_max a b = Rmax a b.
Proof.
  unfold py_max, Rmax. destruct (decide (b > a)), (Rle_dec a b); lra.
Qed.

Lemma py_min_Rmin (a b : R) : py_min a b = Rmin a b.
Proof.
  unfold py_min, Rmin. destruct (decide (b < a)), (Rle_dec a b); lra.
Qed.

(** A symmetric clamp [max(-c, min(c, v))] stays within [-c, c]. *)
Lemma clamp_bounds (c v : R) :
  0 <= c -> - c <= py_max (- c) (py_min c v) <= c.
Proof.
  intros Hc. unfold py_max, py_min.
  repeat destruct (decide _); lra.
Qed.

Lemma sqrt_sum_squares_zero (a b : R) :
  sqrt (a * a + b * b) = 0 <-> a = 0 /\ b = 0.
Proof.
  split.
  - intros H. apply sqrt_eq_0 in H; [nra | nra].
  - intros [-> ->]. replace (0 * 0 + 0 * 0) with 0 by lra. apply sqrt_0.
Qed.

(** ** Joint *)

Section JointFacts.
Variables (dt : R) (j : Joint.t).

Lemma update_name : Joint.name (Joint.update dt j) = Joint.name j.
Proof. unfold Joint.update. cbn. destruct (decide _); reflexivity. Qed.

Lemma update_angle_limits :
  Joint.angle_limits (Joint.update dt j) = Joint.angle_limits j.
Proof. unfold Joint.update. cbn. destruct (decide _); reflexivity. Qed.

Lemma update_ground : Joint.y (Joint.update dt j) <= GROUND_Y.
Proof.
  unfold Joint.update. cbn.
  destruct (decide _) as [H|H]; cbn; lra.
Qed.
End JointFacts.

(** C2. [Joint.update(dt)] damps both velocity components by 0.95 whatever
    [dt] is, then moves the position by velocity times [dt]; when the new [y]
    exceeds the ground line it sets [y] to [GROUND_Y], the vertical velocity
    to 0 and multiplies the horizontal velocity by 0.85.  Hence every joint
    has [y <= GROUND_Y] after the call, and so has every joint of a store
    whose joints were all integrated. *)
Theorem integrate_clamps_to_ground (j : Joint.t) (dt : R) :
  let vx1 := Joint.vx j * 0.95 in
  let vy1 := Joint.vy j * 0.95 in
  let x1 := Joint.x j + vx1 * dt in
  let y1 := Joint.y j + vy1 * dt in
  Joint.update dt j =
    (if decide (y1 > GROUND_Y)
     then Joint.mk x1 GROUND_Y (vx1 * 0.85) 0
            (Joint.name j) (Joint.angle_limits j)
     else Joint.mk x1 y1 vx1 vy1 (Joint.name j) (Joint.angle_limits j))
  /\ Joint.y (Joint.update dt j) <= GROUND_Y
  /\ (forall (σ : Store) (k : string) (j' : Joint.t),
        (Joint.update dt <$> σ) !! k = Some j' -> Joint.y j' <= GROUND_Y).
Proof.
  cbv zeta. split; [| split].
  - unfold Joint.update, FRICTION. cbn.
    destruct (decide _); reflexivity.
  - apply update_ground.
  - intros σ k j' H. rewrite lookup_fmap in H.
    destruct (σ !! k) as [j0|]; simplify_eq/=. apply update_ground.
Qed.

(** ** Bone: the distance constraint *)

Lemma alter_lookup_Some (f : Joint.t -> Joint.t) (σ : Store) (k : string)
    (j : Joint.t) :
  σ !! k = Some j -> alter f k σ = <[k := f j]> σ.
Proof.
  intros H. apply map_eq. intros i.
  rewrite lookup_alter, lookup_insert.
  case_decide; subst; rewrite ?H; reflexivity.
Qed.

Section LengthConstraint.
Variables (b : Bone.t) (σ : Store) (j1 j2 : Joint.t).
Hypothesis Hj1 : σ !! Bone.joint1 b = Some j1.
Hypothesis Hj2 : σ !! Bone.joint2 b = Some j2.

Let dx : R := Joint.x j2 - Joint.x j1.
Let dy : R := Joint.y j2 - Joint.y j1.
Let L : R := sqrt (dx * dx + dy * dy).
Let r : R := Bone.rest_length b.

Lemma current_length_nonneg : 0 <= L.
Proof. apply sqrt_pos. Qed.

(** A bone whose two ends are one and the same joint has length zero. *)
Lemma distinct_ends : L <> 0 -> Bone.joint1 b <> Bone.joint2 b.
Proof.
  intros HL Heq. apply HL. subst L dx dy.
  rewrite Heq in Hj1. rewrite Hj1 in Hj2. injection Hj2 as ->.
  apply sqrt_sum_squares_zero. lra.
Qed.

Lemma length_constraint_skip :
  L = 0 -> Bone.apply_length_constraint b σ = σ.
Proof.
  intros HL. unfold Bone.apply_length_constraint.
  rewrite (lookup_total_correct _ _ _ Hj1), (lookup_total_correct _ _ _ Hj2).
  fold dx dy L. destruct (decide (L > 0)); [lra | reflexivity].
Qed.

Lemma length_constraint_move :
  L <> 0 ->
  Bone.apply_length_constraint b σ =
    <[Bone.joint2 b := moved (- ((L - r) / (2 * L) * dx)) (- ((L - r) / (2 * L) * dy)) j2]>
      (<[Bone.joint1 b := moved ((L - r) / (2 * L) * dx) ((L - r) / (2 * L) * dy) j1]> σ).
Proof.
  intros HL. pose proof (distinct_ends HL) as Hne.
  pose proof current_length_nonneg as Hnn.
  unfold Bone.apply_length_constraint.
  rewrite (lookup_total_correct _ _ _ Hj1), (lookup_total_correct _ _ _ Hj2).
  fold dx dy L r. destruct (decide (L > 0)) as [_|]; [| lra].
  assert (E : forall d : R, d * ((L - r) / L / 2) = (L - r) / (2 * L) * d)
    by (intros d; field; exact HL).
  cbv zeta.
  rewrite (alter_lookup_Some _ σ _ j1 Hj1).
  erewrite (alter_lookup_Some _ (<[_ := _]> σ)); [| apply lookup_insert_eq].
  rewrite insert_insert_eq.
  erewrite (alter_lookup_Some _ (<[_ := _]> σ) (Bone.joint2 b));
    [| rewrite lookup_insert_ne; [exact Hj2 | exact Hne]].
  erewrite (alter_lookup_Some _ (<[_ := _]> (<[_ := _]> σ)));
    [| apply lookup_insert_eq].
  rewrite insert_insert_eq.
  unfold moved, Joint.set_x, Joint.set_y. cbn.
  do 2 f_equal; f_equal; rewrite E; lra.
Qed.

End LengthConstraint.

Lemma store_ab_a : store_ab !! "a" = Some joint_a.
Proof. reflexivity. Defined.

Lemma store_ab_b : store_ab !! "b" = Some joint_b.
Proof. reflexivity. Defined.

Lemma sqrt_3_4_5 : sqrt (3 * 3 + 4 * 4) = 5.
Proof. replace (3 * 3 + 4 * 4) with (5 * 5) by lra. apply sqrt_square. lra. Qed.

(** C3. One application of the distance constraint to a bone whose two
    joints are in the store: when their current distance [L] is zero the
    store is unchanged; otherwise joint1 moves by [+((L - r) / (2L)) * (dx, dy)]
    and joint2 by the opposite amount, [(dx, dy)] being joint2's position
    minus joint1's and [r] the rest length.  Velocities, names and angle
    limits are kept, no other joint changes, and the bone's mass plays no
    part. *)
Theorem length_constraint_effect (b : Bone.t) (σ : Store) (j1 j2 : Joint.t) :
  σ !! Bone.joint1 b = Some j1 ->
  σ !! Bone.joint2 b = Some j2 ->
  let dx := Joint.x j2 - Joint.x j1 in
  let dy := Joint.y j2 - Joint.y j1 in
  let L := sqrt (dx * dx + dy * dy) in
  let r := Bone.rest_length b in
  (L = 0 -> Bone.apply_length_constraint b σ = σ) /\
  (L <> 0 ->
     Bone.apply_length_constraint b σ !! Bone.joint1 b =
       Some (Joint.mk (Joint.x j1 + (L - r) / (2 * L) * dx)
                      (Joint.y j1 + (L - r) / (2 * L) * dy)
                      (Joint.vx j1) (Joint.vy j1)
                      (Joint.name j1) (Joint.angle_limits j1)) /\
     Bone.apply_length_constraint b σ !! Bone.joint2 b =
       Some (Joint.mk (Joint.x j2 - (L - r) / (2 * L) * dx)
                      (Joint.y j2 - (L - r) / (2 * L) * dy)
                      (Joint.vx j2) (Joint.vy j2)
                      (Joint.name j2) (Joint.angle_limits j2)) /\
     (forall k : string, k <> Bone.joint1 b -> k <> Bone.joint2 b ->
        Bone.apply_length_constraint b σ !! k = σ !! k)) /\
  (forall m : R,
     Bone.apply_length_constraint
       (Bone.mk (Bone.joint1 b) (Bone.joint2 b) (Bone.rest_length b)
          (Bone.name b) m) σ
     = Bone.apply_length_constraint b σ).
Proof.
  intros Hj1 Hj2. cbv zeta. split; [| split].
  - apply (length_constraint_skip b σ j1 j2 Hj1 Hj2).
  - intros HL.
    pose proof (distinct_ends b σ j1 j2 Hj1 Hj2 HL) as Hne.
    rewrite (length_constraint_move b σ j1 j2 Hj1 Hj2 HL).
    split; [| split].
    + rewrite lookup_insert_ne by congruence. rewrite lookup_insert_eq.
      reflexivity.
    + rewrite lookup_insert_eq. unfold moved. do 2 f_equal; lra.
    + intros k Hk1 Hk2. rewrite !lookup_insert_ne by congruence. reflexivity.
  - intros m. reflexivity.
Qed.

(** The theorem on the 3-4-5 example: the current length is 5, and joint
    "a" moves by [(5 - 1) / (2 * 5)] of the separation. *)
Lemma length_constraint_effect_witness :
  Bone.apply_length_constraint bone_ab store_ab !! "a" =
    Some (Joint.mk (0 + (5 - 1) / (2 * 5) * 3) (0 + (5 - 1) / (2 * 5) * 4)
            0 0 "a" None).
Proof.
  destruct (length_constraint_effect bone_ab store_ab joint_a joint_b
              store_ab_a store_ab_b) as (_ & Hmove & _).
  cbn in Hmove. replace (3 - 0) with 3 in Hmove by lra.
  replace (4 - 0) with 4 in Hmove by lra.
  rewrite sqrt_3_4_5 in Hmove.
  apply Hmove. lra.
Defined.

(** C10, as the code has it.  One application of the distance constraint
    changes no velocity of any joint, and changes the positions of the
    bone's two joints by opposite offsets: what it adds to a coordinate of
    the first joint it subtracts from the same coordinate of the second.
    Over the real numbers the midpoint of the two joints is therefore kept
    exactly.  (In binary64 each of the four updates rounds, and the midpoint
    moves in the last digits: see the counterexample.) *)
Theorem length_constraint_keeps_midpoint (b : Bone.t) (σ : Store)
    (j1 j2 : Joint.t) :
  σ !! Bone.joint1 b = Some j1 ->
  σ !! Bone.joint2 b = Some j2 ->
  (exists (offset_x offset_y : R) (j1' j2' : Joint.t),
     Bone.apply_length_constraint b σ !! Bone.joint1 b = Some j1' /\
     Bone.apply_length_constraint b σ !! Bone.joint2 b = Some j2' /\
     Joint.x j1' = Joint.x j1 + offset_x /\
     Joint.y j1' = Joint.y j1 + offset_y /\
     Joint.x j2' = Joint.x j2 - offset_x /\
     Joint.y j2' = Joint.y j2 - offset_y /\
     (Joint.x j1' + Joint.x j2') / 2 = (Joint.x j1 + Joint.x j2) / 2 /\
     (Joint.y j1' + Joint.y j2') / 2 = (Joint.y j1 + Joint.y j2) / 2 /\
     Joint.vx j1' = Joint.vx j1 /\ Joint.vy j1' = Joint.vy j1 /\
     Joint.vx j2' = Joint.vx j2 /\ Joint.vy j2' = Joint.vy j2) /\
  (forall k : string,
     Joint.vx <$> Bone.apply_length_constraint b σ !! k = Joint.vx <$> σ !! k /\
     Joint.vy <$> Bone.apply_length_constraint b σ !! k = Joint.vy <$> σ !! k).
Proof.
  intros Hj1 Hj2.
  set (dx := Joint.x j2 - Joint.x j1).
  set (dy := Joint.y j2 - Joint.y j1).
  destruct (decide (sqrt (dx * dx + dy * dy) = 0)) as [HL|HL].
  - rewrite (length_constraint_skip b σ j1 j2 Hj1 Hj2 HL).
    split; [| split; reflexivity].
    exists 0, 0, j1, j2. repeat split; assumption || lra.
  - pose proof (distinct_ends b σ j1 j2 Hj1 Hj2 HL) as Hne.
    rewrite (length_constraint_move b σ j1 j2 Hj1 Hj2 HL).
    split.
    + eexists _, _, _, _. split; [| split].
      * rewrite lookup_insert_ne by congruence. apply lookup_insert_eq.
      * apply lookup_insert_eq.
      * unfold moved. cbn. repeat split; try reflexivity; lra.
    + intros k. rewrite !lookup_insert.
      destruct (decide (Bone.joint2 b = k)) as [<-|];
        [rewrite Hj2; split; reflexivity |].
      destruct (decide (Bone.joint1 b = k)) as [<-|];
        [rewrite Hj1; split; reflexivity |].
      split; reflexivity.
Qed.

(** The theorem on the 3-4-5 example. *)
Lemma length_constraint_keeps_midpoint_witness :
  exists (offset_x offset_y : R) (j1' j2' : Joint.t),
    Bone.apply_length_constraint bone_ab store_ab !! "a" = Some j1' /\
    Bone.apply_length_constraint bone_ab store_ab !! "b" = Some j2' /\
    Joint.x j1' = 0 + offset_x /\
    Joint.y j1' = 0 + offset_y /\
    Joint.x j2' = 3 - offset_x /\
    Joint.y j2' = 4 - offset_y /\
    (Joint.x j1' + Joint.x j2') / 2 = (0 + 3) / 2 /\
    (Joint.y j1' + Joint.y j2') / 2 = (0 + 4) / 2 /\
    Joint.vx j1' = 0 /\ Joint.vy j1' = 0 /\
    Joint.vx j2' = 0 /\ Joint.vy j2' = 0.
Proof.
  exact (proj1 (length_constraint_keeps_midpoint bone_ab store_ab
                  joint_a joint_b store_ab_a store_ab_b)).
Defined.

(** In binary64 the constraint changes no velocity either, whatever the
    inputs: it never writes one. *)
Lemma binary64_length_constraint_velocities (rest_length : PrimFloat.float)
    (joint1 joint2 : Binary64.joint) :
  let after := Binary64.apply_length_constraint rest_length joint1 joint2 in
  Binary64.vx after.1 = Binary64.vx joint1 /\
  Binary64.vy after.1 = Binary64.vy joint1 /\
  Binary64.vx after.2 = Binary64.vx joint2 /\
  Binary64.vy after.2 = Binary64.vy joint2.
Proof.
  cbv zeta. unfold Binary64.apply_length_constraint. cbv zeta.
  destruct (PrimFloat.ltb _ _); repeat split; reflexivity.
Qed.

(** C10 as it is worded fails of the code as it runs.  With joints at
    (0, 0) and (1, 1) and a rest length of 10, binary64 arithmetic moves the
    first joint to x = -3.0355339059327373 and the second to
    x = 4.0355339059327378: the midpoint goes from 0.5 to
    0.50000000000000022.  The velocities are unchanged. *)
Lemma length_constraint_midpoint_counterexample :
  let after :=
    Binary64.apply_length_constraint Binary64.rest_pq
      Binary64.joint_p Binary64.joint_q in
  PrimFloat.ltb (Binary64.midpoint_x Binary64.joint_p Binary64.joint_q)
                (Binary64.midpoint_x after.1 after.2) = true /\
  Binary64.vx after.1 = Binary64.vx Binary64.joint_p /\
  Binary64.vy after.1 = Binary64.vy Binary64.joint_p /\
  Binary64.vx after.2 = Binary64.vx Binary64.joint_q /\
  Binary64.vy after.2 = Binary64.vy Binary64.joint_q.
Proof. vm_compute. repeat split; reflexivity. Qed.

(** ** Bone: angle normalisation *)

Lemma INR_to_nat_ge (z : Z) : IZR z <= INR (Z.to_nat z).
Proof.
  destruct (Z_le_gt_dec 0 z) as [Hz|Hz].
  - rewrite INR_IZR_INZ, Z2Nat.id by exact Hz. lra.
  - replace (Z.to_nat z) with 0%nat by lia. cbn.
    apply IZR_le. lia.
Qed.

Lemma fuel_above_enough (a : R) : a - PI <= 2 * PI * INR (fuel_above a).
Proof.
  unfold fuel_above. pose proof PI_RGT_0 as Hpi.
  set (q := (a - PI) / (2 * PI)).
  pose proof (archimed q) as [Hup _].
  pose proof (INR_to_nat_ge (up q)) as Hn.
  assert (Hq : a - PI = 2 * PI * q) by (unfold q; field; lra).
  rewrite Hq. apply Rmult_le_compat_l; lra.
Qed.

Lemma fuel_below_enough (a : R) : - PI - a <= 2 * PI * INR (fuel_below a).
Proof.
  unfold fuel_below. pose proof PI_RGT_0 as Hpi.
  set (q := (- PI - a) / (2 * PI)).
  pose proof (archimed q) as [Hup _].
  pose proof (INR_to_nat_ge (up q)) as Hn.
  assert (Hq : - PI - a = 2 * PI * q) by (unfold q; field; lra).
  rewrite Hq. apply Rmult_le_compat_l; lra.
Qed.

(** With enough iterations the first loop leaves with its condition false. *)
Lemma wrap_above_exit (n : nat) (a : R) :
  a - PI <= 2 * PI * INR n -> wrap_above n a <= PI.
Proof.
  revert a. induction n as [|n IH]; intros a Ha.
  - cbn in *. lra.
  - rewrite S_INR in Ha. cbn [wrap_above].
    destruct (decide (a > PI)); [apply IH |]; lra.
Qed.

Lemma wrap_below_exit (n : nat) (a : R) :
  - PI - a <= 2 * PI * INR n -> - PI <= wrap_below n a.
Proof.
  revert a. induction n as [|n IH]; intros a Ha.
  - cbn in *. lra.
  - rewrite S_INR in Ha. cbn [wrap_below].
    destruct (decide (a < - PI)); [apply IH |]; lra.
Qed.

Lemma wrap_above_id (n : nat) (a : R) : a <= PI -> wrap_above n a = a.
Proof.
  intros Ha. destruct n; cbn; [reflexivity |].
  destruct (decide (a > PI)); [lra | reflexivity].
Qed.

Lemma wrap_below_id (n : nat) (a : R) : - PI <= a -> wrap_below n a = a.
Proof.
  intros Ha. destruct n; cbn; [reflexivity |].
  destruct (decide (a < - PI)); [lra | reflexivity].
Qed.

(** The first loop only subtracts whole turns and never goes below [-pi]
    unless it started there. *)
Lemma wrap_above_shape (n : nat) (a : R) :
  (exists k : Z, wrap_above n a = a + 2 * IZR k * PI) /\
  (wrap_above n a = a \/ - PI < wrap_above n a).
Proof.
  pose proof PI_RGT_0 as Hpi.
  revert a. induction n as [|n IH]; intros a.
  - cbn. split; [exists 0%Z; lra | left; reflexivity].
  - cbn [wrap_above]. destruct (decide (a > PI)) as [Ha|Ha].
    + destruct (IH (a - 2 * PI)) as [[k Hk] Hlow]. split.
      * exists (k - 1)%Z. rewrite Hk, minus_IZR. lra.
      * right. destruct Hlow as [-> | Hlow]; lra.
    + split; [exists 0%Z; lra | left; reflexivity].
Qed.

Lemma wrap_below_shape (n : nat) (a : R) :
  (exists k : Z, wrap_below n a = a + 2 * IZR k * PI) /\
  (wrap_below n a = a \/ wrap_below n a < PI).
Proof.
  pose proof PI_RGT_0 as Hpi.
  revert a. induction n as [|n IH]; intros a.
  - cbn. split; [exists 0%Z; lra | left; reflexivity].
  - cbn [wrap_below]. destruct (decide (a < - PI)) as [Ha|Ha].
    + destruct (IH (a + 2 * PI)) as [[k Hk] Hup]. split.
      * exists (k + 1)%Z. rewrite Hk, plus_IZR. lra.
      * right. destruct Hup as [-> | Hup]; lra.
    + split; [exists 0%Z; lra | left; reflexivity].
Qed.

(** Both loops terminate, and what they leave is the angle shifted by whole
    turns into the closed interval from [-pi] to [pi]. *)
Lemma normalize_angle_range (a : R) :
  - PI <= normalize_angle a <= PI /\
  exists k : Z, normalize_angle a = a + 2 * IZR k * PI.
Proof.
  unfold normalize_angle.
  set (a1 := wrap_above (fuel_above a) a).
  pose proof (wrap_above_exit _ _ (fuel_above_enough a)) as H1. fold a1 in H1.
  pose proof (wrap_below_exit _ _ (fuel_below_enough a1)) as H2.
  destruct (wrap_above_shape (fuel_above a) a) as [[k1 Hk1] _]. fold a1 in Hk1.
  destruct (wrap_below_shape (fuel_below a1) a1) as [[k2 Hk2] Hup].
  split.
  - split; [exact H2 |]. destruct Hup as [-> | Hup]; lra.
  - exists (k1 + k2)%Z. rewrite Hk2, Hk1, plus_IZR. lra.
Qed.

Lemma normalize_angle_id (a : R) : - PI <= a <= PI -> normalize_angle a = a.
Proof.
  intros [Hlo Hhi]. unfold normalize_angle.
  rewrite (wrap_above_id _ _ Hhi). apply wrap_below_id. exact Hlo.
Qed.

(** ** Bone: the angle constraint *)





Section AngleConstraint.
Variables (b parent : Bone.t) (σ : Store) (min_angle max_angle : R).
Hypothesis Hlim :
  Joint.angle_limits (σ !!! Bone.joint2 b) = Some (min_angle, max_angle).

Let dx1 : R := Joint.x (σ !!! Bone.joint1 b) - Joint.x (σ !!! Bone.joint1 parent).
Let dy1 : R := Joint.y (σ !!! Bone.joint1 b) - Joint.y (σ !!! Bone.joint1 parent).
Let dx2 : R := Joint.x (σ !!! Bone.joint2 b) - Joint.x (σ !!! Bone.joint1 b).
Let dy2 : R := Joint.y (σ !!! Bone.joint2 b) - Joint.y (σ !!! Bone.joint1 b).
Let parent_angle : R := atan2 dy1 dx1.
Let relative_angle : R := normalize_angle (atan2 dy2 dx2 - parent_angle).







End AngleConstraint.












(** ** Bone: the rest length fixed at construction *)

Lemma distance_ab : Bone.distance store_ab "a" "b" = 5.
Proof.
  unfold Bone.distance.
  rewrite (lookup_total_correct store_ab "a" joint_a store_ab_a).
  rewrite (lookup_total_correct store_ab "b" joint_b store_ab_b).
  cbn. replace (3 - 0) with 3 by lra. replace (4 - 0) with 4 by lra.
  apply sqrt_3_4_5.
Qed.

Lemma distance_cd : Bone.distance store_cd "c" "d" = 0.
Proof.
  unfold Bone.distance.
  rewrite (lookup_total_correct store_cd "c" joint_c eq_refl).
  rewrite (lookup_total_correct store_cd "d" joint_d eq_refl).
  cbn. apply sqrt_sum_squares_zero. lra.
Qed.

Lemma distance_nonneg (σ : Store) (h1 h2 : string) :
  0 <= Bone.distance σ h1 h2.
Proof. apply sqrt_pos. Qed.

Lemma distance_zero_iff (σ : Store) (h1 h2 : string) :
  Bone.distance σ h1 h2 = 0 <->
  Joint.x (σ !!! h1) = Joint.x (σ !!! h2) /\
  Joint.y (σ !!! h1) = Joint.y (σ !!! h2).
Proof.
  unfold Bone.distance. rewrite sqrt_sum_squares_zero. lra.
Qed.

(** C9, as the code has it.  The rest length of a new bone is the length
    passed to the constructor when that is non-zero; when no length is
    passed, or the length passed is zero, it is the distance between the two
    joints at that moment, which is never negative and is zero exactly when
    the joints sit on the same point.  So the rest length is strictly
    positive when a positive length is passed, and when none or zero is
    passed for joints on different points.  The distance constraint skips a
    bone whenever its current length is zero. *)
Theorem rest_length_at_construction (σ : Store) (j1 j2 : string) (m : R)
    (length : option R) (nm : string) :
  let b := Bone.init σ j1 j2 m length nm in
  (forall l : R, length = Some l -> l <> 0 -> Bone.rest_length b = l) /\
  (length = None \/ length = Some 0 ->
     Bone.rest_length b = Bone.distance σ j1 j2) /\
  0 <= Bone.distance σ j1 j2 /\
  (Bone.distance σ j1 j2 = 0 <->
     Joint.x (σ !!! j1) = Joint.x (σ !!! j2) /\
     Joint.y (σ !!! j1) = Joint.y (σ !!! j2)) /\
  (forall σ' : Store,
     Bone.calculate_distance b σ' = 0 -> Bone.apply_length_constraint b σ' = σ').
Proof.
  cbv zeta. split; [| split; [| split; [| split]]].
  - intros l -> Hl. unfold Bone.init. cbn.
    destruct (decide (l = 0)); [contradiction | reflexivity].
  - intros [-> | ->]; unfold Bone.init; cbn; [reflexivity |].
    destruct (decide (0 = 0)); [reflexivity | contradiction].
  - apply distance_nonneg.
  - apply distance_zero_iff.
  - intros σ' H. unfold Bone.calculate_distance, Bone.distance in H. cbn in H.
    unfold Bone.apply_length_constraint. cbn. rewrite H.
    destruct (decide (0 > 0)); [lra | reflexivity].
Qed.

(** C9 fails as stated: a bone built over two distinct joints with an
    explicit length 0 gets their distance (here 5) as rest length, not 0; a
    bone built with no length over two distinct joints on the same point
    has rest length 0; and an explicit negative length is kept as it is. *)
Lemma rest_length_counterexample :
  Bone.rest_length (Bone.init store_ab "a" "b" 1 (Some 0) "ab") = 5 /\
  Bone.rest_length (Bone.init store_cd "c" "d" 1 None "cd") = 0 /\
  Bone.rest_length (Bone.init store_ab "a" "b" 1 (Some (-1)) "ab") = -1.
Proof.
  split; [| split].
  - unfold Bone.init. cbn. destruct (decide (0 = 0)); [| contradiction].
    apply distance_ab.
  - unfold Bone.init. cbn. apply distance_cd.
  - unfold Bone.init. cbn. destruct (decide (-1 = 0)); [lra | reflexivity].
Qed.

(** ** Construction *)

Lemma init_layout (cx cy sc : R) :
  layout_of (HumanSkeleton.bones (HumanSkeleton.init cx cy sc)) = bone_layout.
Proof. vm_compute. reflexivity. Qed.

Lemma init_dom (cx cy sc : R) :
  dom (HumanSkeleton.joints (HumanSkeleton.init cx cy sc))
  = list_to_set joint_names.
Proof. vm_compute. reflexivity. Qed.

Lemma init_joint_count (cx cy sc : R) :
  size (HumanSkeleton.joints (HumanSkeleton.init cx cy sc)) = 19%nat.
Proof. vm_compute. reflexivity. Qed.

Lemma init_bone_count (cx cy sc : R) :
  length (HumanSkeleton.bones (HumanSkeleton.init cx cy sc)) = 18%nat.
Proof. vm_compute. reflexivity. Qed.

Lemma init_total_mass (cx cy sc : R) :
  total_mass (HumanSkeleton.bones (HumanSkeleton.init cx cy sc)) = 73.43.
Proof. vm_compute. lra. Qed.

(** C6, as the code has it.  Whatever the centre and the scale, the
    constructor builds exactly 19 named joints and exactly 18 bones: the
    dictionary's keys are the 19 names of [joint_names], and the bones are,
    in order, those of [bone_layout]. *)
Theorem skeleton_counts (center_x center_y scale : R) :
  let s := HumanSkeleton.init center_x center_y scale in
  size (HumanSkeleton.joints s) = 19%nat /\
  length (HumanSkeleton.bones s) = 18%nat /\
  dom (HumanSkeleton.joints s) = list_to_set joint_names /\
  layout_of (HumanSkeleton.bones s) = bone_layout.
Proof.
  cbv zeta. split; [| split; [| split]].
  - apply init_joint_count.
  - apply init_bone_count.
  - apply init_dom.
  - apply init_layout.
Qed.

(** C6 fails as stated: the skeleton built at (600, 400) with scale 1 has
    neither 18 joints nor 17 bones. *)
Lemma skeleton_counts_counterexample :
  size (HumanSkeleton.joints (HumanSkeleton.init 600 400 1)) <> 18%nat /\
  length (HumanSkeleton.bones (HumanSkeleton.init 600 400 1)) <> 17%nat.
Proof.
  rewrite init_joint_count, init_bone_count. split; discriminate.
Qed.

(** C5, as the code has it.  Every bone of a new skeleton has the body mass
    70 times the fraction the table gives its name, a name missing from the
    table gets 1% of the body mass, and the 18 bones together weigh 73.43,
    that is 1.049 times the body mass. *)
Theorem skeleton_total_mass (center_x center_y scale : R) :
  let s := HumanSkeleton.init center_x center_y scale in
  HumanSkeleton.body_mass s = 70 /\
  Forall (λ b, Bone.mass b =
               70 * default 0.01 (HumanSkeleton.mass_percentages !! Bone.name b))
    (HumanSkeleton.bones s) /\
  (forall (s' : HumanSkeleton.t) (nm : string),
     HumanSkeleton.mass_percentages !! nm = None ->
     HumanSkeleton.calculate_segment_mass s' nm
     = HumanSkeleton.body_mass s' * 0.01) /\
  total_mass (HumanSkeleton.bones s) = 73.43 /\
  total_mass (HumanSkeleton.bones s) = 1.049 * HumanSkeleton.body_mass s.
Proof.
  cbv zeta. split; [| split; [| split; [| split]]].
  - reflexivity.
  - vm_compute. repeat constructor.
  - intros s' nm H. unfold HumanSkeleton.calculate_segment_mass.
    rewrite H. reflexivity.
  - apply init_total_mass.
  - rewrite init_total_mass.
    change (HumanSkeleton.body_mass (HumanSkeleton.init center_x center_y scale))
      with 70.
    lra.
Qed.

(** C5 fails as stated: the bones of the skeleton built at (600, 400) with
    scale 1 do not add up to the body mass. *)
Lemma skeleton_total_mass_counterexample :
  total_mass (HumanSkeleton.bones (HumanSkeleton.init 600 400 1)) <> 70.
Proof.
  rewrite init_total_mass. lra.
Qed.

(** ** Skeleton: what the force generators leave alone *)

Section ForceOn.
Variables (k : string) (fx fy : R) (s : HumanSkeleton.t).
Let s' : HumanSkeleton.t := HumanSkeleton.force_on k fx fy s.

Lemma joints_force_on :
  HumanSkeleton.joints s' = alter (Joint.apply_force fx fy) k (HumanSkeleton.joints s).
Proof. reflexivity. Qed.

Lemma bones_force_on : HumanSkeleton.bones s' = HumanSkeleton.bones s.
Proof. reflexivity. Qed.

Lemma scale_force_on : HumanSkeleton.scale s' = HumanSkeleton.scale s.
Proof. reflexivity. Qed.

Lemma gains_force_on :
  HumanSkeleton.standing_balance_force s' = HumanSkeleton.standing_balance_force s /\
  HumanSkeleton.posture_force s' = HumanSkeleton.posture_force s.
Proof. split; reflexivity. Qed.

Lemma sizes_force_on :
  HumanSkeleton.head_size s' = HumanSkeleton.head_size s /\
  HumanSkeleton.torso_length s' = HumanSkeleton.torso_length s /\
  HumanSkeleton.upper_leg_length s' = HumanSkeleton.upper_leg_length s /\
  HumanSkeleton.lower_leg_length s' = HumanSkeleton.lower_leg_length s.
Proof. repeat split; reflexivity. Qed.
End ForceOn.

Section GroundFoot.
Variables (s : HumanSkeleton.t) (k : string).
Let s' : HumanSkeleton.t := HumanSkeleton.ground_foot s k.

Lemma joints_ground_foot :
  HumanSkeleton.joints s' =
    alter (foot_rule (HumanSkeleton.standing_balance_force s)) k
      (HumanSkeleton.joints s).
Proof.
  subst s'. unfold HumanSkeleton.ground_foot.
  destruct (HumanSkeleton.joints s !! k) as [j|] eqn:Hk.
  - rewrite (lookup_total_correct _ _ _ Hk).
    destruct (decide (Joint.y j < GROUND_Y)) as [Hy|Hy].
    + rewrite joints_force_on. apply alter_ext. intros j' Hj'.
      rewrite Hk in Hj'. injection Hj' as <-.
      unfold foot_rule. destruct (decide _); [reflexivity | contradiction].
    + symmetry. apply alter_id. intros j' Hj'.
      rewrite Hk in Hj'. injection Hj' as <-.
      unfold foot_rule. destruct (decide _); [contradiction | reflexivity].
  - transitivity (HumanSkeleton.joints s).
    + destruct (decide _); [| reflexivity].
      rewrite joints_force_on. apply alter_id. intros j' Hj'. congruence.
    + symmetry. apply alter_id. intros j' Hj'. congruence.
Qed.

Lemma params_ground_foot :
  HumanSkeleton.bones s' = HumanSkeleton.bones s /\
  HumanSkeleton.standing_balance_force s' = HumanSkeleton.standing_balance_force s /\
  HumanSkeleton.posture_force s' = HumanSkeleton.posture_force s /\
  HumanSkeleton.head_size s' = HumanSkeleton.head_size s /\
  HumanSkeleton.torso_length s' = HumanSkeleton.torso_length s /\
  HumanSkeleton.upper_leg_length s' = HumanSkeleton.upper_leg_length s /\
  HumanSkeleton.lower_leg_length s' = HumanSkeleton.lower_leg_length s.
Proof.
  subst s'. unfold HumanSkeleton.ground_foot.
  destruct (decide _); repeat split; reflexivity.
Qed.
End GroundFoot.

(** [ground_foot] writes to the joint store only. *)
Lemma standing_balance_force_ground_foot (s : HumanSkeleton.t) (k : string) :
  HumanSkeleton.standing_balance_force (HumanSkeleton.ground_foot s k) = HumanSkeleton.standing_balance_force s.
Proof. unfold HumanSkeleton.ground_foot. destruct (decide _); reflexivity. Qed.

Lemma posture_force_ground_foot (s : HumanSkeleton.t) (k : string) :
  HumanSkeleton.posture_force (HumanSkeleton.ground_foot s k) = HumanSkeleton.posture_force s.
Proof. unfold HumanSkeleton.ground_foot. destruct (decide _); reflexivity. Qed.

Lemma head_size_ground_foot (s : HumanSkeleton.t) (k : string) :
  HumanSkeleton.head_size (HumanSkeleton.ground_foot s k) = HumanSkeleton.head_size s.
Proof. unfold HumanSkeleton.ground_foot. destruct (decide _); reflexivity. Qed.

Lemma torso_length_ground_foot (s : HumanSkeleton.t) (k : string) :
  HumanSkeleton.torso_length (HumanSkeleton.ground_foot s k) = HumanSkeleton.torso_length s.
Proof. unfold HumanSkeleton.ground_foot. destruct (decide _); reflexivity. Qed.

Lemma upper_leg_length_ground_foot (s : HumanSkeleton.t) (k : string) :
  HumanSkeleton.upper_leg_length (HumanSkeleton.ground_foot s k) = HumanSkeleton.upper_leg_length s.
Proof. unfold HumanSkeleton.ground_foot. destruct (decide _); reflexivity. Qed.

Lemma lower_leg_length_ground_foot (s : HumanSkeleton.t) (k : string) :
  HumanSkeleton.lower_leg_length (HumanSkeleton.ground_foot s k) = HumanSkeleton.lower_leg_length s.
Proof. unfold HumanSkeleton.ground_foot. destruct (decide _); reflexivity. Qed.

Lemma bones_ground_foot (s : HumanSkeleton.t) (k : string) :
  HumanSkeleton.bones (HumanSkeleton.ground_foot s k) = HumanSkeleton.bones s.
Proof. unfold HumanSkeleton.ground_foot. destruct (decide _); reflexivity. Qed.

Lemma scale_ground_foot (s : HumanSkeleton.t) (k : string) :
  HumanSkeleton.scale (HumanSkeleton.ground_foot s k) = HumanSkeleton.scale s.
Proof. unfold HumanSkeleton.ground_foot. destruct (decide _); reflexivity. Qed.

Lemma walking_ground_foot (s : HumanSkeleton.t) (k : string) :
  HumanSkeleton.walking (HumanSkeleton.ground_foot s k) = HumanSkeleton.walking s.
Proof. unfold HumanSkeleton.ground_foot. destruct (decide _); reflexivity. Qed.

Lemma walk_cycle_time_ground_foot (s : HumanSkeleton.t) (k : string) :
  HumanSkeleton.walk_cycle_time (HumanSkeleton.ground_foot s k) = HumanSkeleton.walk_cycle_time s.
Proof. unfold HumanSkeleton.ground_foot. destruct (decide _); reflexivity. Qed.

Lemma walk_speed_ground_foot (s : HumanSkeleton.t) (k : string) :
  HumanSkeleton.walk_speed (HumanSkeleton.ground_foot s k) = HumanSkeleton.walk_speed s.
Proof. unfold HumanSkeleton.ground_foot. destruct (decide _); reflexivity. Qed.

Create Rewrite HintDb frame.
#[global] Hint Rewrite joints_ground_foot standing_balance_force_ground_foot
  posture_force_ground_foot head_size_ground_foot torso_length_ground_foot
  upper_leg_length_ground_foot lower_leg_length_ground_foot
  bones_ground_foot scale_ground_foot walking_ground_foot
  walk_cycle_time_ground_foot walk_speed_ground_foot : frame.


(** Forces and the foot rule move no joint. *)
Lemma position_alter_force (fx fy : R) (k k' : string) (σ : Store) :
  Joint.x (alter (Joint.apply_force fx fy) k σ !!! k') = Joint.x (σ !!! k') /\
  Joint.y (alter (Joint.apply_force fx fy) k σ !!! k') = Joint.y (σ !!! k').
Proof.
  rewrite lookup_total_alter. destruct (decide (k = k')) as [->|];
    [| split; reflexivity].
  rewrite lookup_total_alt. destruct (σ !! k'); split; reflexivity.
Qed.

Lemma position_alter_foot (g : R) (k k' : string) (σ : Store) :
  Joint.x (alter (foot_rule g) k σ !!! k') = Joint.x (σ !!! k') /\
  Joint.y (alter (foot_rule g) k σ !!! k') = Joint.y (σ !!! k').
Proof.
  rewrite lookup_total_alter. destruct (decide (k = k')) as [->|];
    [| split; reflexivity].
  rewrite lookup_total_alt. destruct (σ !! k') as [j|]; [| split; reflexivity].
  cbn. unfold foot_rule. destruct (decide _); split; reflexivity.
Qed.

Lemma x_alter_force (fx fy : R) (k k' : string) (σ : Store) :
  Joint.x (alter (Joint.apply_force fx fy) k σ !!! k') = Joint.x (σ !!! k').
Proof. apply position_alter_force. Qed.

Lemma y_alter_force (fx fy : R) (k k' : string) (σ : Store) :
  Joint.y (alter (Joint.apply_force fx fy) k σ !!! k') = Joint.y (σ !!! k').
Proof. apply position_alter_force. Qed.

Lemma x_alter_foot (g : R) (k k' : string) (σ : Store) :
  Joint.x (alter (foot_rule g) k σ !!! k') = Joint.x (σ !!! k').
Proof. apply position_alter_foot. Qed.

Lemma y_alter_foot (g : R) (k k' : string) (σ : Store) :
  Joint.y (alter (foot_rule g) k σ !!! k') = Joint.y (σ !!! k').
Proof. apply position_alter_foot. Qed.

#[global] Hint Rewrite x_alter_force y_alter_force x_alter_foot y_alter_foot
  : frame.

Lemma py_clamp (c c' v : R) :
  c' = - c -> py_max c' (py_min c v) = clamp c v.
Proof. intros ->. unfold clamp. rewrite py_max_Rmax, py_min_Rmin. reflexivity. Qed.

Ltac skeleton_frame :=
  cbn [HumanSkeleton.force_on HumanSkeleton.set_joints
       HumanSkeleton.joints HumanSkeleton.bones HumanSkeleton.scale
       HumanSkeleton.head_size HumanSkeleton.torso_length
       HumanSkeleton.upper_leg_length HumanSkeleton.lower_leg_length
       HumanSkeleton.standing_balance_force HumanSkeleton.posture_force
       HumanSkeleton.walking HumanSkeleton.walk_cycle_time
       HumanSkeleton.walk_speed];
  autorewrite with frame.

Lemma standing_joints (s : HumanSkeleton.t) :
  let σ := HumanSkeleton.joints s in
  let g := HumanSkeleton.standing_balance_force s in
  let p := HumanSkeleton.posture_force s in
  let left_foot := σ !!! "left_foot" in
  let right_foot := σ !!! "right_foot" in
  let pelvis := σ !!! "pelvis" in
  let chest := σ !!! "chest" in
  let head := σ !!! "head" in
  let pelvis_fx :=
    ((Joint.x left_foot + Joint.x right_foot) / 2 - Joint.x pelvis) * p in
  let pelvis_fy :=
    (GROUND_Y - HumanSkeleton.upper_leg_length s
     - HumanSkeleton.lower_leg_length s - 20 - Joint.y pelvis) * p in
  let chest_fx := (Joint.x pelvis - Joint.x chest) * p * 0.3 in
  let chest_fy :=
    (Joint.y pelvis - HumanSkeleton.torso_length s / 2 - Joint.y chest) * p * 0.3 in
  let error_x := Joint.x chest - Joint.x head in
  let error_y :=
    Joint.y chest - HumanSkeleton.torso_length s / 2
    - HumanSkeleton.head_size s - Joint.y head in
  let σ4 :=
    alter (Joint.apply_force (clamp 50 chest_fx) (clamp 50 chest_fy)) "chest"
      (alter (Joint.apply_force (clamp 300 pelvis_fx) (clamp 300 pelvis_fy)) "pelvis"
         (alter (foot_rule g) "right_foot" (alter (foot_rule g) "left_foot" σ))) in
  HumanSkeleton.joints (HumanSkeleton.maintain_standing_posture s) =
    if decide (sqrt (error_x * error_x + error_y * error_y) > 2)
    then alter (Joint.apply_force (clamp 20 (error_x * p * 0.1))
                                  (clamp 20 (error_y * p * 0.1))) "head" σ4
    else σ4.
Proof.
  cbv zeta. unfold HumanSkeleton.maintain_standing_posture.
  cbn [foldl]. cbv zeta. skeleton_frame.
  rewrite !py_clamp by lra.
  destruct (decide _); skeleton_frame; reflexivity.
Qed.

(** C8, as the code has it.  In the standing state, with the gains the
    constructor sets (100 for the feet, 50 for posture): each foot above the
    ground line on the screen, [y < GROUND_Y], gets 100 times its distance
    from the ground line, at most 100, added to its vertical velocity, a
    positive increment that drives it down the screen towards the line; a
    foot on the line or past it, [y >= GROUND_Y], gets nothing; the pelvis
    gets 50 times its error toward the horizontal midpoint of the feet and
    the fixed height [upper_leg + lower_leg + 20] above the ground, clamped
    to 300 on each axis; the head gets 0.1 times the posture gain times its
    error from the point above the chest, clamped to 20 on each axis, only
    when that error is longer than 2, and nothing at or below 2. *)
Theorem standing_forces (s : HumanSkeleton.t) :
  HumanSkeleton.standing_balance_force s = 100 ->
  HumanSkeleton.posture_force s = 50 ->
  let σ := HumanSkeleton.joints s in
  let σ' := HumanSkeleton.joints (HumanSkeleton.maintain_standing_posture s) in
  let push (j : Joint.t) : R := Rmin (100 * (GROUND_Y - Joint.y j)) 100 in
  let foot (j : Joint.t) : Joint.t :=
    if decide (Joint.y j < GROUND_Y)
    then Joint.mk (Joint.x j) (Joint.y j) (Joint.vx j) (Joint.vy j + push j)
           (Joint.name j) (Joint.angle_limits j)
    else j in
  let pelvis_target_x :=
    (Joint.x (σ !!! "left_foot") + Joint.x (σ !!! "right_foot")) / 2 in
  let pelvis_target_y :=
    GROUND_Y - (HumanSkeleton.upper_leg_length s
                + HumanSkeleton.lower_leg_length s + 20) in
  let error_x := Joint.x (σ !!! "chest") - Joint.x (σ !!! "head") in
  let error_y :=
    Joint.y (σ !!! "chest") - HumanSkeleton.torso_length s / 2
    - HumanSkeleton.head_size s - Joint.y (σ !!! "head") in
  σ' !! "left_foot" = foot <$> σ !! "left_foot" /\
  σ' !! "right_foot" = foot <$> σ !! "right_foot" /\
  (forall j : Joint.t, Joint.y j < GROUND_Y -> 0 < push j <= 100) /\
  (forall j : Joint.t, GROUND_Y <= Joint.y j -> foot j = j) /\
  σ' !! "pelvis" =
    Joint.apply_force
      (clamp 300 (50 * (pelvis_target_x - Joint.x (σ !!! "pelvis"))))
      (clamp 300 (50 * (pelvis_target_y - Joint.y (σ !!! "pelvis"))))
    <$> σ !! "pelvis" /\
  (sqrt (error_x * error_x + error_y * error_y) > 2 ->
     σ' !! "head" =
       Joint.apply_force (clamp 20 (0.1 * 50 * error_x))
                         (clamp 20 (0.1 * 50 * error_y))
       <$> σ !! "head") /\
  (sqrt (error_x * error_x + error_y * error_y) <= 2 ->
     σ' !! "head" = σ !! "head").
Proof.
  intros Hg Hp. cbv zeta. rewrite standing_joints. cbv zeta.
  rewrite Hg, Hp.
  assert (Hfoot : forall k : string,
            foot_rule 100 <$> HumanSkeleton.joints s !! k =
            (λ j, if decide (Joint.y j < GROUND_Y)
                  then Joint.mk (Joint.x j) (Joint.y j) (Joint.vx j)
                         (Joint.vy j + Rmin (100 * (GROUND_Y - Joint.y j)) 100)
                         (Joint.name j) (Joint.angle_limits j)
                  else j) <$> HumanSkeleton.joints s !! k).
  { intros k. destruct (HumanSkeleton.joints s !! k) as [j|]; [| reflexivity].
    cbn. unfold foot_rule. destruct (decide _); [| reflexivity].
    rewrite py_min_Rmin.
    unfold Joint.apply_force, Joint.set_vx, Joint.set_vy. cbn.
    do 2 f_equal; [lra |]. do 2 f_equal. lra. }
  split; [| split; [| split; [| split; [| split; [| split]]]]].
  - destruct (decide _);
      rewrite ?lookup_alter_ne by done; rewrite lookup_alter_eq; apply Hfoot.
  - destruct (decide _);
      rewrite ?lookup_alter_ne by done; rewrite lookup_alter_eq;
      rewrite lookup_alter_ne by done; apply Hfoot.
  - intros j Hy. unfold Rmin. destruct (Rle_dec _ _); lra.
  - intros j Hy. destruct (decide _); [lra | reflexivity].
  - destruct (decide _);
      rewrite ?lookup_alter_ne by done; rewrite lookup_alter_eq;
      rewrite !lookup_alter_ne by done;
      (destruct (HumanSkeleton.joints s !! "pelvis"); [| reflexivity]);
      cbn; do 2 f_equal; f_equal; lra.
  - intros Hz. destruct (decide _); [| lra].
    rewrite lookup_alter_eq, !lookup_alter_ne by done.
    destruct (HumanSkeleton.joints s !! "head"); [| reflexivity].
    cbn. do 2 f_equal; f_equal; lra.
  - intros Hz. destruct (decide _); [lra |].
    rewrite !lookup_alter_ne by done. reflexivity.
Qed.

(** The theorem on the skeleton built at (600, 400) with scale 1. *)
Lemma standing_forces_witness :
  HumanSkeleton.joints
    (HumanSkeleton.maintain_standing_posture (HumanSkeleton.init 600 400 1))
    !! "left_foot"
  = (λ j : Joint.t,
       if decide (Joint.y j < GROUND_Y)
       then Joint.mk (Joint.x j) (Joint.y j) (Joint.vx j)
              (Joint.vy j + Rmin (100 * (GROUND_Y - Joint.y j)) 100)
              (Joint.name j) (Joint.angle_limits j)
       else j)
    <$> HumanSkeleton.joints (HumanSkeleton.init 600 400 1) !! "left_foot".
Proof.
  exact (proj1 (standing_forces (HumanSkeleton.init 600 400 1)
                  eq_refl eq_refl)).
Defined.

Lemma standing_left_foot (s : HumanSkeleton.t) :
  HumanSkeleton.joints (HumanSkeleton.maintain_standing_posture s) !! "left_foot"
  = foot_rule (HumanSkeleton.standing_balance_force s)
    <$> HumanSkeleton.joints s !! "left_foot".
Proof.
  rewrite standing_joints. cbv zeta.
  destruct (decide _);
    rewrite ?lookup_alter_ne by done; rewrite lookup_alter_eq; reflexivity.
Qed.

Lemma fresh_left_foot (cx cy sc : R) :
  HumanSkeleton.joints (HumanSkeleton.init cx cy sc) !! "left_foot"
  = Some (Joint.init (cx - 10 + 25 * sc / 2)
            (cy + 120 * sc / 4 + 80 * sc + 75 * sc) "left_foot" None).
Proof. reflexivity. Qed.

(** C8 as it is worded fails in both directions.  The skeleton built at
    (600, 600) has its left foot at [y = 785], below the ground line
    [GROUND_Y = 700]: the claim gives it an upward force of 100, the code
    gives it none.  The skeleton built at (600, 400) has its left foot at
    [y = 585], above the ground line: the claim gives it no force, the code
    adds 100 to its vertical velocity, which drives it down the screen. *)
Lemma standing_forces_counterexample :
  let below := HumanSkeleton.init 600 600 1 in
  let above := HumanSkeleton.init 600 400 1 in
  let after (s : HumanSkeleton.t) :=
    HumanSkeleton.joints (HumanSkeleton.maintain_standing_posture s)
      !! "left_foot" in
  let before (s : HumanSkeleton.t) := HumanSkeleton.joints s !! "left_foot" in
  Joint.y <$> before below = Some 785 /\
  after below = before below /\
  Joint.vy <$> (claimed_foot_rule <$> before below) = Some (-100) /\
  Joint.vy <$> before below = Some 0 /\
  Joint.y <$> before above = Some 585 /\
  Joint.vy <$> after above = Some 100 /\
  claimed_foot_rule <$> before above = before above.
Proof.
  cbv beta zeta. rewrite !standing_left_foot, !fresh_left_foot.
  change (HumanSkeleton.standing_balance_force (HumanSkeleton.init 600 600 1))
    with 100.
  change (HumanSkeleton.standing_balance_force (HumanSkeleton.init 600 400 1))
    with 100.
  pose proof GROUND_Y_val as HG.
  cbn [fmap option_fmap option_map]. unfold foot_rule, claimed_foot_rule.
  cbn [Joint.y Joint.vy Joint.init].
  repeat split.
  - f_equal. lra.
  - destruct (decide _) as [H|H]; [lra | reflexivity].
  - destruct (decide _) as [H|H]; [| lra].
    cbn. f_equal. unfold Rmin. destruct (Rle_dec _ _); lra.
  - f_equal. lra.
  - destruct (decide _) as [H|H]; [| lra].
    cbn. f_equal. rewrite py_min_Rmin. unfold Rmin.
    destruct (Rle_dec _ _); lra.
  - destruct (decide _) as [H|H]; [lra | reflexivity].
Qed.

(** ** Skeleton: the gait force generator *)

Lemma walking_joints (s : HumanSkeleton.t) :
  let σ := HumanSkeleton.joints s in
  let sc := HumanSkeleton.scale s in
  let phase := py_mod (HumanSkeleton.walk_cycle_time s) (2 * PI) in
  let pelvis_x := Joint.x (σ !!! "pelvis") in
  let left_fx :=
    (pelvis_x - 10 + sin phase * (30 * sc) - Joint.x (σ !!! "left_foot")) * 10 in
  let left_fy :=
    (GROUND_Y - py_max 0 (sin phase * 15 * sc) - Joint.y (σ !!! "left_foot")) * 10 in
  let right_fx :=
    (pelvis_x + 10 + sin (phase + PI) * (30 * sc)
     - Joint.x (σ !!! "right_foot")) * 10 in
  let right_fy :=
    (GROUND_Y - py_max 0 (sin (phase + PI) * 15 * sc)
     - Joint.y (σ !!! "right_foot")) * 10 in
  HumanSkeleton.joints (HumanSkeleton.apply_walking_forces s) =
    alter (Joint.apply_force 0 (clamp 20 (sin (phase * 2) * (5 * sc) * 2))) "pelvis"
      (alter (Joint.apply_force (5 * sc) 0) "pelvis"
         (alter (Joint.apply_force (clamp 30 (sin phase * (20 * sc) * 2)) 0)
            "right_hand"
            (alter (Joint.apply_force
                      (clamp 30 (sin (phase + PI) * (20 * sc) * 2)) 0)
               "left_hand"
               (alter (Joint.apply_force (clamp 100 right_fx) (clamp 100 right_fy))
                  "right_foot"
                  (alter (Joint.apply_force (clamp 100 left_fx) (clamp 100 left_fy))
                     "left_foot" σ))))).
Proof.
  cbv zeta. unfold HumanSkeleton.apply_walking_forces. cbv zeta.
  skeleton_frame. rewrite !py_clamp by lra. reflexivity.
Qed.

Lemma lift_nonneg_scale (a sc : R) :
  0 <= sc -> py_max 0 (a * 15 * sc) = Rmax 0 a * 15 * sc.
Proof.
  intros Hsc. rewrite py_max_Rmax. unfold Rmax.
  destruct (Rle_dec 0 (a * 15 * sc)), (Rle_dec 0 a); nra.
Qed.

(** C7, as the code has it.  In the walking state, for a scale that is not
    negative and with [phase] the gait phase modulo a full turn: each foot
    gets on each axis 10 times its position error against its target,
    clamped to 100, the left foot's target being
    [x = pelvis.x - 10 + sin(phase) * 30 * scale] and
    [y = GROUND_Y - max(0, sin(phase)) * 15 * scale], the right foot's using
    [phase + pi] and the offset [+10]; each hand gets a horizontal force of
    twice its arm swing, half a turn from the leg of its side, clamped to 30,
    and its vertical velocity does not change.  (The code takes the maximum
    after scaling, [max(0, sin(phase) * 15 * scale)]; the two agree exactly
    when the scale is not negative.) *)
Theorem walking_forces (s : HumanSkeleton.t) :
  0 <= HumanSkeleton.scale s ->
  let σ := HumanSkeleton.joints s in
  let σ' := HumanSkeleton.joints (HumanSkeleton.apply_walking_forces s) in
  let sc := HumanSkeleton.scale s in
  let phase := py_mod (HumanSkeleton.walk_cycle_time s) (2 * PI) in
  let pelvis_x := Joint.x (σ !!! "pelvis") in
  let foot (ph offset : R) (j : Joint.t) : Joint.t :=
    let target_x := pelvis_x + offset + sin ph * 30 * sc in
    let target_y := GROUND_Y - Rmax 0 (sin ph) * 15 * sc in
    Joint.apply_force (clamp 100 (10 * (target_x - Joint.x j)))
                      (clamp 100 (10 * (target_y - Joint.y j))) j in
  let arm_swing (leg_phase : R) : R := sin (leg_phase + PI) * (20 * sc) in
  σ' !! "left_foot" = foot phase (-10) <$> σ !! "left_foot" /\
  σ' !! "right_foot" = foot (phase + PI) 10 <$> σ !! "right_foot" /\
  σ' !! "left_hand" =
    Joint.apply_force (clamp 30 (arm_swing phase * 2)) 0 <$> σ !! "left_hand" /\
  σ' !! "right_hand" =
    Joint.apply_force (clamp 30 (arm_swing (phase + PI) * 2)) 0
    <$> σ !! "right_hand" /\
  Joint.vy <$> σ' !! "left_hand" = Joint.vy <$> σ !! "left_hand" /\
  Joint.vy <$> σ' !! "right_hand" = Joint.vy <$> σ !! "right_hand".
Proof.
  intros Hsc. cbv zeta. rewrite walking_joints. cbv zeta.
  rewrite !(lift_nonneg_scale _ _ Hsc).
  assert (Hturn : forall a : R, sin (a + PI + PI) = sin a)
    by (intros a; rewrite !neg_sin; lra).
  repeat split.
  - rewrite !lookup_alter_ne by done. rewrite lookup_alter_eq.
    destruct (HumanSkeleton.joints s !! "left_foot") as [j|] eqn:Hj;
      [| reflexivity].
    rewrite (lookup_total_correct _ _ _ Hj). cbn.
    do 2 f_equal; f_equal; lra.
  - rewrite !lookup_alter_ne by done. rewrite lookup_alter_eq.
    rewrite lookup_alter_ne by done.
    destruct (HumanSkeleton.joints s !! "right_foot") as [j|] eqn:Hj;
      [| reflexivity].
    rewrite (lookup_total_correct _ _ _ Hj). cbn.
    do 2 f_equal; f_equal; lra.
  - rewrite !lookup_alter_ne by done. rewrite lookup_alter_eq.
    rewrite !lookup_alter_ne by done. reflexivity.
  - rewrite !lookup_alter_ne by done. rewrite lookup_alter_eq.
    rewrite !lookup_alter_ne by done. rewrite Hturn. reflexivity.
  - rewrite !lookup_alter_ne by done. rewrite lookup_alter_eq.
    rewrite !lookup_alter_ne by done.
    destruct (HumanSkeleton.joints s !! "left_hand"); [| reflexivity].
    cbn. f_equal. lra.
  - rewrite !lookup_alter_ne by done. rewrite lookup_alter_eq.
    rewrite !lookup_alter_ne by done.
    destruct (HumanSkeleton.joints s !! "right_hand"); [| reflexivity].
    cbn. f_equal. lra.
Qed.

Lemma py_mod_three_quarters : py_mod (3 * (PI / 2)) (2 * PI) = 3 * (PI / 2).
Proof.
  pose proof PI_RGT_0 as Hpi. unfold py_mod.
  replace (3 * (PI / 2) / (2 * PI)) with (3 / 4) by (field; lra).
  replace (Int_part (3 / 4)) with 0%Z; [lra |].
  apply Int_part_spec. lra.
Qed.

Lemma clamp_inside (c v : R) : - c <= v <= c -> clamp c v = v.
Proof.
  intros [Hlo Hhi]. unfold clamp, Rmax, Rmin.
  destruct (Rle_dec c v), (Rle_dec (- c) _); lra.
Qed.

Lemma mirrored_code :
  Joint.vy <$> HumanSkeleton.joints
                 (HumanSkeleton.apply_walking_forces skeleton_mirrored)
               !! "left_foot"
  = Some (-100).
Proof.
  rewrite walking_joints. cbv zeta.
  rewrite !lookup_alter_ne by done. rewrite lookup_alter_eq.
  change (HumanSkeleton.walk_cycle_time skeleton_mirrored) with (3 * (PI / 2)).
  change (HumanSkeleton.scale skeleton_mirrored) with (-1).
  change (HumanSkeleton.joints skeleton_mirrored !! "left_foot")
    with (Some (Joint.init 577.5 695 "left_foot" None)).
  change (HumanSkeleton.joints skeleton_mirrored !!! "left_foot")
    with (Joint.init 577.5 695 "left_foot" None).
  cbn. rewrite py_mod_three_quarters, sin_3PI2, GROUND_Y_val.
  f_equal.
  replace (py_max 0 (-1 * 15 * -1)) with 15
    by (unfold py_max; destruct (decide _); lra).
  rewrite clamp_inside; lra.
Qed.

Lemma mirrored_claimed : claimed_left_foot_fy skeleton_mirrored = 50.
Proof.
  unfold claimed_left_foot_fy. cbv zeta.
  change (HumanSkeleton.walk_cycle_time skeleton_mirrored) with (3 * (PI / 2)).
  change (HumanSkeleton.scale skeleton_mirrored) with (-1).
  change (HumanSkeleton.joints skeleton_mirrored !!! "left_foot")
    with (Joint.init 577.5 695 "left_foot" None).
  cbn. rewrite py_mod_three_quarters, sin_3PI2, GROUND_Y_val.
  replace (Rmax 0 (-1)) with 0 by (unfold Rmax; destruct (Rle_dec _ _); lra).
  rewrite clamp_inside; lra.
Qed.

(** C7 fails as stated: on the mirrored skeleton the code pushes the left
    foot with the vertical force -100, where the formula of the claim gives
    50. *)
Lemma walking_forces_counterexample :
  Joint.vy <$> HumanSkeleton.joints
                 (HumanSkeleton.apply_walking_forces skeleton_mirrored)
               !! "left_foot"
  <> (λ j : Joint.t, Joint.vy j + claimed_left_foot_fy skeleton_mirrored)
     <$> HumanSkeleton.joints skeleton_mirrored !! "left_foot".
Proof.
  rewrite mirrored_code, mirrored_claimed.
  change (HumanSkeleton.joints skeleton_mirrored !! "left_foot")
    with (Some (Joint.init 577.5 695 "left_foot" None)).
  cbn. intros H. injection H as H. lra.
Qed.

(** The theorem on the skeleton built at (600, 400) with scale 1, once it
    walks. *)
Lemma walking_forces_witness :
  Joint.vy <$> HumanSkeleton.joints
                 (HumanSkeleton.apply_walking_forces
                    (HumanSkeleton.start_walking (HumanSkeleton.init 600 400 1)))
               !! "left_hand"
  = Joint.vy <$> HumanSkeleton.joints
                   (HumanSkeleton.start_walking (HumanSkeleton.init 600 400 1))
                 !! "left_hand".
Proof.
  assert (Hsc : 0 <= HumanSkeleton.scale
                       (HumanSkeleton.start_walking (HumanSkeleton.init 600 400 1))).
  { change (0 <= 1). lra. }
  exact (proj1 (proj2 (proj2 (proj2 (proj2
           (walking_forces _ Hsc)))))).
Defined.

(** ** The per-frame update *)

Lemma bone_dict_snoc (bs : list Bone.t) (b : Bone.t) :
  HumanSkeleton.bone_dict (bs ++ [b])
  = <[Bone.name b := b]> (HumanSkeleton.bone_dict bs).
Proof. unfold HumanSkeleton.bone_dict. rewrite foldl_snoc. reflexivity. Qed.

(** The dictionary built from the bone list maps a name to the last bone of
    that name. *)
Lemma bone_dict_find (bs : list Bone.t) (nm : string) :
  HumanSkeleton.bone_dict bs !! nm = find_bone nm bs.
Proof.
  unfold find_bone. induction bs as [|b bs IH] using rev_ind.
  - reflexivity.
  - rewrite bone_dict_snoc, filter_app.
    destruct (decide (Bone.name b = nm)) as [Hb|Hb].
    + rewrite filter_cons_True by exact Hb. rewrite filter_nil, last_snoc.
      rewrite <- Hb. apply lookup_insert_eq.
    + rewrite filter_cons_False by exact Hb. rewrite filter_nil, app_nil_r.
      rewrite lookup_insert_ne by exact Hb. exact IH.
Qed.

Lemma gravity_pass_foldl (dt : R) (bs : list Bone.t) (σ : Store) :
  foldl (HumanSkeleton.gravity_on_bone dt) σ bs = gravity_pass dt bs σ.
Proof.
  revert σ. induction bs as [|b bs IH]; intros σ; [reflexivity |].
  cbn [foldl gravity_pass]. rewrite IH. reflexivity.
Qed.

Lemma distance_pass_foldl (bs : list Bone.t) (σ : Store) :
  foldl (λ σ0 bone, Bone.apply_length_constraint bone σ0) σ bs
  = distance_pass bs σ.
Proof.
  revert σ. induction bs as [|b bs IH]; intros σ; [reflexivity |].
  cbn [foldl distance_pass]. apply IH.
Qed.

Lemma constrain_entry_step (bs : list Bone.t) (σ : Store)
    (entry : string * (string * string)) :
  HumanSkeleton.constrain_entry (HumanSkeleton.bone_dict bs) σ entry
  = angle_step bs (entry.1, entry.2.1) σ.
Proof.
  destruct entry as [child [parent joint]].
  unfold HumanSkeleton.constrain_entry, angle_step. cbn [fst snd].
  rewrite !bone_dict_find. reflexivity.
Qed.

Lemma angle_pass_foldl_any (bs : list Bone.t)
    (table : list (string * (string * string))) (σ : Store) :
  foldl (HumanSkeleton.constrain_entry (HumanSkeleton.bone_dict bs)) σ table
  = angle_pass bs ((λ e, (e.1, e.2.1)) <$> table) σ.
Proof.
  revert σ. induction table as [|e table IH]; intros σ; [reflexivity |].
  cbn [foldl fmap list_fmap angle_pass].
  rewrite constrain_entry_step. apply IH.
Qed.

Lemma angle_pass_foldl (bs : list Bone.t) (σ : Store) :
  foldl (HumanSkeleton.constrain_entry (HumanSkeleton.bone_dict bs)) σ
    HumanSkeleton.bone_hierarchy
  = angle_pass bs hierarchy_pairs σ.
Proof. apply angle_pass_foldl_any. Qed.

Lemma apply_force_lift (dv : R) (j : Joint.t) :
  Joint.apply_force 0 dv j = lift_vy dv j.
Proof.
  unfold Joint.apply_force, lift_vy, Joint.set_vy, Joint.set_vx. cbn.
  f_equal; lra.
Qed.

Lemma lift_vy_add (a b : R) (j : Joint.t) :
  lift_vy b (lift_vy a j) = lift_vy (a + b) j.
Proof. unfold lift_vy. cbn. f_equal; lra. Qed.

Lemma lift_vy_0 (j : Joint.t) : lift_vy 0 j = j.
Proof. destruct j. unfold lift_vy. cbn. f_equal; lra. Qed.

(** Gravity, joint by joint: each joint gains the increments of the bones
    it ends, once per end, and nothing else about it changes. *)
Lemma gravity_pass_lookup (dt : R) (bs : list Bone.t) (σ : Store) (k : string) :
  gravity_pass dt bs σ !! k = lift_vy (gravity_share dt bs k) <$> σ !! k.
Proof.
  revert σ. induction bs as [|b bs IH]; intros σ.
  - cbn. destruct (σ !! k); cbn; [rewrite lift_vy_0 |]; reflexivity.
  - cbn [gravity_pass gravity_share]. rewrite IH. unfold add_velocity_y.
    destruct (decide (Bone.joint2 b = k)) as [H2|H2];
      destruct (decide (Bone.joint1 b = k)) as [H1|H1].
    + rewrite H1, H2, !lookup_alter_eq.
      destruct (σ !! k) as [j|]; cbn; [| reflexivity].
      rewrite !apply_force_lift, !lift_vy_add. do 2 f_equal. lra.
    + rewrite H2, lookup_alter_eq, lookup_alter_ne by exact H1.
      destruct (σ !! k) as [j|]; cbn; [| reflexivity].
      rewrite !apply_force_lift, !lift_vy_add. do 2 f_equal. lra.
    + rewrite lookup_alter_ne by exact H2. rewrite H1, lookup_alter_eq.
      destruct (σ !! k) as [j|]; cbn; [| reflexivity].
      rewrite !apply_force_lift, !lift_vy_add. do 2 f_equal. lra.
    + rewrite !lookup_alter_ne by assumption.
      destruct (σ !! k) as [j|]; cbn; [| reflexivity].
      do 2 f_equal. lra.
Qed.

Lemma find_bone_is_Some (nm : string) (bs : list Bone.t) :
  nm ∈ (Bone.name <$> bs) -> is_Some (find_bone nm bs).
Proof.
  intros Hin. apply list_elem_of_fmap in Hin as (b & -> & Hb).
  unfold find_bone. apply last_is_Some. intros Hnil.
  apply (filter_nil_not_elem_of _ _ b Hnil); [reflexivity | exact Hb].
Qed.

Lemma layout_names (bs : list Bone.t) :
  Bone.name <$> bs = (λ t, t.2) <$> layout_of bs.
Proof.
  unfold layout_of. rewrite <- list_fmap_compose. reflexivity.
Qed.

(** In a skeleton whose bones are laid out as the constructor builds them,
    every entry of the hierarchy table finds both its bones. *)
Lemma hierarchy_complete (bs : list Bone.t) :
  layout_of bs = bone_layout ->
  Forall (λ e, is_Some (find_bone e.1 bs) /\ is_Some (find_bone e.2 bs))
    hierarchy_pairs.
Proof.
  intros Hl.
  assert (Hn : forall nm : string,
            nm ∈ ((λ t : string * string * string, t.2) <$> bone_layout) ->
            is_Some (find_bone nm bs)).
  { intros nm Hnm. apply find_bone_is_Some.
    rewrite layout_names, Hl. exact Hnm. }
  unfold hierarchy_pairs.
  repeat (apply Forall_cons; split; [split; apply Hn; cbn; set_solver |]).
  apply Forall_nil. exact I.
Qed.

Lemma frame_walking (s : HumanSkeleton.t) :
  HumanSkeleton.bones (HumanSkeleton.apply_walking_forces s) = HumanSkeleton.bones s /\
  HumanSkeleton.walking (HumanSkeleton.apply_walking_forces s) = HumanSkeleton.walking s /\
  HumanSkeleton.walk_cycle_time (HumanSkeleton.apply_walking_forces s)
  = HumanSkeleton.walk_cycle_time s.
Proof. repeat split. Qed.

Lemma frame_standing (s : HumanSkeleton.t) :
  HumanSkeleton.bones (HumanSkeleton.maintain_standing_posture s) = HumanSkeleton.bones s /\
  HumanSkeleton.walking (HumanSkeleton.maintain_standing_posture s) = HumanSkeleton.walking s /\
  HumanSkeleton.walk_cycle_time (HumanSkeleton.maintain_standing_posture s)
  = HumanSkeleton.walk_cycle_time s.
Proof.
  unfold HumanSkeleton.maintain_standing_posture. cbn [foldl]. cbv zeta.
  destruct (decide _); skeleton_frame; repeat split; reflexivity.
Qed.

Lemma frame_force_phase (dt : R) (s : HumanSkeleton.t) :
  HumanSkeleton.bones (force_phase dt s) = HumanSkeleton.bones s /\
  HumanSkeleton.walking (force_phase dt s) = HumanSkeleton.walking s /\
  HumanSkeleton.walk_cycle_time (force_phase dt s)
  = if HumanSkeleton.walking s
    then HumanSkeleton.walk_cycle_time s + dt * HumanSkeleton.walk_speed s
    else HumanSkeleton.walk_cycle_time s.
Proof.
  unfold force_phase. destruct (HumanSkeleton.walking s) eqn:Hw.
  - destruct (frame_walking
                (HumanSkeleton.set_walk_cycle_time
                   (HumanSkeleton.walk_cycle_time s
                    + dt * HumanSkeleton.walk_speed s) s)) as (Hb & Hwk & Hc).
    rewrite Hb, Hwk, Hc. cbn. rewrite Hw. repeat split; reflexivity.
  - destruct (frame_standing s) as (Hb & Hwk & Hc).
    rewrite Hb, Hwk, Hc, Hw. repeat split; reflexivity.
Qed.

Lemma relax_once_joints (s : HumanSkeleton.t) :
  HumanSkeleton.joints (HumanSkeleton.relax_once s)
  = relaxation (HumanSkeleton.bones s) (HumanSkeleton.joints s).
Proof.
  unfold HumanSkeleton.relax_once, HumanSkeleton.apply_angle_constraints.
  cbv zeta. cbn [HumanSkeleton.joints HumanSkeleton.bones HumanSkeleton.set_joints].
  rewrite distance_pass_foldl, angle_pass_foldl. reflexivity.
Qed.

Lemma relax_once_frame (s : HumanSkeleton.t) :
  HumanSkeleton.bones (HumanSkeleton.relax_once s) = HumanSkeleton.bones s /\
  HumanSkeleton.walking (HumanSkeleton.relax_once s) = HumanSkeleton.walking s /\
  HumanSkeleton.walk_cycle_time (HumanSkeleton.relax_once s)
  = HumanSkeleton.walk_cycle_time s.
Proof. repeat split. Qed.

Lemma update_unfold (dt : R) (s : HumanSkeleton.t) :
  HumanSkeleton.update dt s =
    HumanSkeleton.relax_once (HumanSkeleton.relax_once (HumanSkeleton.relax_once
      (HumanSkeleton.apply_gravity_to_bones dt
         (HumanSkeleton.set_joints
            (Joint.update dt <$> HumanSkeleton.joints (force_phase dt s))
            (force_phase dt s))))).
Proof. reflexivity. Qed.

Lemma update_joints (dt : R) (s : HumanSkeleton.t) :
  HumanSkeleton.joints (HumanSkeleton.update dt s) =
    relaxation (HumanSkeleton.bones s) (relaxation (HumanSkeleton.bones s)
      (relaxation (HumanSkeleton.bones s)
         (gravity_pass dt (HumanSkeleton.bones s)
            (Joint.update dt <$> HumanSkeleton.joints (force_phase dt s))))).
Proof.
  rewrite update_unfold.
  destruct (frame_force_phase dt s) as (Hb1 & _ & _).
  rewrite !relax_once_joints, !(proj1 (relax_once_frame _)).
  unfold HumanSkeleton.apply_gravity_to_bones.
  cbn [HumanSkeleton.joints HumanSkeleton.bones HumanSkeleton.set_joints].
  rewrite gravity_pass_foldl, Hb1. reflexivity.
Qed.

(** C1. One call of the per-frame update does, in this order: exactly one
    force generator (when the walking flag is set, the gait generator after
    the phase accumulator was advanced by [dt * walk_speed], otherwise the
    balance controller); the integration of every joint; for every bone, the
    velocity increment [(0, mass * GRAVITY * 0.5 * dt)] to each of its two
    end joints; and three relaxation iterations, each applying the distance
    constraint to every bone in list order and then the angle constraint of
    each of the ten hierarchy entries, child against tabulated parent.  The
    bone list and the walking flag are left as they were, and with the bones
    the constructor builds every one of the ten entries finds its bones. *)
Theorem update_order (dt : R) (s : HumanSkeleton.t) :
  let s1 := force_phase dt s in
  let bs := HumanSkeleton.bones s in
  let σ2 := Joint.update dt <$> HumanSkeleton.joints s1 in
  let σ3 := gravity_pass dt bs σ2 in
  HumanSkeleton.joints (HumanSkeleton.update dt s)
    = relaxation bs (relaxation bs (relaxation bs σ3)) /\
  HumanSkeleton.bones (HumanSkeleton.update dt s) = bs /\
  HumanSkeleton.walking (HumanSkeleton.update dt s) = HumanSkeleton.walking s /\
  HumanSkeleton.walk_cycle_time (HumanSkeleton.update dt s)
    = (if HumanSkeleton.walking s
       then HumanSkeleton.walk_cycle_time s + dt * HumanSkeleton.walk_speed s
       else HumanSkeleton.walk_cycle_time s) /\
  (forall k : string,
     σ3 !! k =
       (λ j, Joint.mk (Joint.x j) (Joint.y j) (Joint.vx j)
               (Joint.vy j + gravity_share dt bs k)
               (Joint.name j) (Joint.angle_limits j)) <$> σ2 !! k) /\
  length hierarchy_pairs = 10%nat /\
  (layout_of bs = bone_layout ->
     Forall (λ e, is_Some (find_bone e.1 bs) /\ is_Some (find_bone e.2 bs))
       hierarchy_pairs).
Proof.
  cbv zeta.
  destruct (frame_force_phase dt s) as (Hb1 & Hw1 & Hc1).
  split; [apply update_joints |].
  rewrite update_unfold.
  split; [| split; [| split; [| split; [| split]]]].
  - rewrite !(proj1 (relax_once_frame _)). exact Hb1.
  - rewrite !(proj1 (proj2 (relax_once_frame _))). exact Hw1.
  - rewrite !(proj2 (proj2 (relax_once_frame _))). exact Hc1.
  - intros k. apply gravity_pass_lookup.
  - reflexivity.
  - apply hierarchy_complete.
Qed.

(** ** What an update never touches *)

Lemma fixed_part_force_on (k : string) (fx fy : R) (s : HumanSkeleton.t) :
  fixed_part (HumanSkeleton.force_on k fx fy s) = fixed_part s.
Proof. reflexivity. Qed.

Lemma fixed_part_ground_foot (s : HumanSkeleton.t) (k : string) :
  fixed_part (HumanSkeleton.ground_foot s k) = fixed_part s.
Proof. unfold HumanSkeleton.ground_foot. destruct (decide _); reflexivity. Qed.

Lemma fixed_part_walking (s : HumanSkeleton.t) :
  fixed_part (HumanSkeleton.apply_walking_forces s) = fixed_part s.
Proof. reflexivity. Qed.

Lemma fixed_part_standing (s : HumanSkeleton.t) :
  fixed_part (HumanSkeleton.maintain_standing_posture s) = fixed_part s.
Proof.
  unfold HumanSkeleton.maintain_standing_posture. cbn [foldl]. cbv zeta.
  destruct (decide _);
    rewrite !fixed_part_force_on, !fixed_part_ground_foot; reflexivity.
Qed.

Lemma fixed_part_update (dt : R) (s : HumanSkeleton.t) :
  fixed_part (HumanSkeleton.update dt s) = fixed_part s.
Proof.
  change (fixed_part (HumanSkeleton.update dt s))
    with (fixed_part (force_phase dt s)).
  unfold force_phase. destruct (HumanSkeleton.walking s).
  - rewrite fixed_part_walking. reflexivity.
  - apply fixed_part_standing.
Qed.

(** Every reachable state has the fixed part of a freshly built skeleton:
    same sizes, gains, body mass and bones. *)
Lemma reachable_fixed_part (s : HumanSkeleton.t) :
  reachable s ->
  exists x0 y0 scale0 : R,
    fixed_part s = fixed_part (HumanSkeleton.init x0 y0 scale0).
Proof.
  induction 1 as [x0 y0 sc | dt s _ IH | s _ IH | s _ IH].
  - exists x0, y0, sc. reflexivity.
  - rewrite fixed_part_update. exact IH.
  - exact IH.
  - exact IH.
Qed.

Lemma init_gains (x0 y0 scale0 : R) :
  HumanSkeleton.standing_balance_force (HumanSkeleton.init x0 y0 scale0) = 100 /\
  HumanSkeleton.posture_force (HumanSkeleton.init x0 y0 scale0) = 50 /\
  HumanSkeleton.body_mass (HumanSkeleton.init x0 y0 scale0) = 70 /\
  HumanSkeleton.walk_speed (HumanSkeleton.init x0 y0 scale0) = 2.
Proof. repeat split; reflexivity. Qed.

Lemma reachable_gains (s : HumanSkeleton.t) :
  reachable s ->
  HumanSkeleton.standing_balance_force s = 100 /\
  HumanSkeleton.posture_force s = 50 /\
  HumanSkeleton.body_mass s = 70 /\
  HumanSkeleton.walk_speed s = 2 /\
  layout_of (HumanSkeleton.bones s) = bone_layout.
Proof.
  intros Hs. destruct (reachable_fixed_part s Hs) as (x0 & y0 & sc & Hfix).
  destruct (init_gains x0 y0 sc) as (Hg & Hp & Hm & Hw).
  pose proof (init_layout x0 y0 sc) as Hl.
  set (s0 := HumanSkeleton.init x0 y0 sc) in *. clearbody s0.
  destruct s, s0.
  unfold fixed_part, HumanSkeleton.set_walk_cycle_time,
    HumanSkeleton.set_walking, HumanSkeleton.set_joints in Hfix.
  cbn in *. injection Hfix; intros; subst.
  repeat split; assumption.
Qed.

(** ** The keys of the joint dictionary never change *)

Lemma dom_length_constraint (b : Bone.t) (σ : Store) :
  dom (Bone.apply_length_constraint b σ) = dom σ.
Proof.
  unfold Bone.apply_length_constraint. cbv zeta.
  destruct (decide _); [| reflexivity].
  rewrite !dom_alter_L. reflexivity.
Qed.

Lemma dom_angle_constraint (b : Bone.t) (parent : option Bone.t) (σ : Store) :
  dom (Bone.apply_angle_constraint b parent σ) = dom σ.
Proof.
  unfold Bone.apply_angle_constraint.
  destruct (Joint.angle_limits _) as [[lo hi]|]; [| reflexivity].
  destruct parent as [p|]; [| reflexivity]. cbv zeta.
  repeat (destruct (decide _); try reflexivity); apply dom_alter_L.
Qed.

Lemma dom_distance_pass (bs : list Bone.t) (σ : Store) :
  dom (distance_pass bs σ) = dom σ.
Proof.
  revert σ. induction bs as [|b bs IH]; intros σ; [reflexivity |].
  cbn [distance_pass]. rewrite IH. apply dom_length_constraint.
Qed.

Lemma dom_angle_pass (bs : list Bone.t) (pairs : list (string * string))
    (σ : Store) :
  dom (angle_pass bs pairs σ) = dom σ.
Proof.
  revert σ. induction pairs as [|e pairs IH]; intros σ; [reflexivity |].
  cbn [angle_pass]. rewrite IH. unfold angle_step.
  destruct (find_bone e.1 bs); [| reflexivity].
  destruct (find_bone e.2 bs); [| reflexivity].
  apply dom_angle_constraint.
Qed.

Lemma dom_gravity_pass (dt : R) (bs : list Bone.t) (σ : Store) :
  dom (gravity_pass dt bs σ) = dom σ.
Proof.
  revert σ. induction bs as [|b bs IH]; intros σ; [reflexivity |].
  cbn [gravity_pass]. rewrite IH. unfold add_velocity_y.
  rewrite !dom_alter_L. reflexivity.
Qed.

Lemma dom_force_phase (dt : R) (s : HumanSkeleton.t) :
  dom (HumanSkeleton.joints (force_phase dt s)) = dom (HumanSkeleton.joints s).
Proof.
  unfold force_phase. destruct (HumanSkeleton.walking s).
  - rewrite walking_joints. cbv zeta. rewrite !dom_alter_L. reflexivity.
  - rewrite standing_joints. cbv zeta.
    destruct (decide _); rewrite !dom_alter_L; reflexivity.
Qed.

(** No update adds or removes a key, so every key the constructor assigned
    stays readable. *)
Lemma update_keeps_keys (dt : R) (s : HumanSkeleton.t) :
  dom (HumanSkeleton.joints (HumanSkeleton.update dt s))
  = dom (HumanSkeleton.joints s).
Proof.
  rewrite update_joints. unfold relaxation.
  do 3 rewrite dom_angle_pass, dom_distance_pass.
  rewrite dom_gravity_pass, dom_fmap_L. apply dom_force_phase.
Qed.

Lemma reachable_keys (s : HumanSkeleton.t) :
  reachable s -> dom (HumanSkeleton.joints s) = list_to_set joint_names.
Proof.
  induction 1 as [x0 y0 sc | dt s _ IH | s _ IH | s _ IH].
  - apply init_dom.
  - rewrite update_keeps_keys. exact IH.
  - exact IH.
  - exact IH.
Qed.

(** * Further properties of the code *)

(** ** Joint *)

(** X1. Integration never speeds a joint up: whatever [dt] is, each
    velocity component after [Joint.update] is at most 95% of what it was, in
    magnitude. *)
Theorem update_damps (dt : R) (j : Joint.t) :
  Rabs (Joint.vx (Joint.update dt j)) <= 0.95 * Rabs (Joint.vx j) /\
  Rabs (Joint.vy (Joint.update dt j)) <= 0.95 * Rabs (Joint.vy j).
Proof.
  pose proof (Rabs_pos (Joint.vx j)) as Hx.
  pose proof (Rabs_pos (Joint.vy j)) as Hy.
  unfold Joint.update, FRICTION. cbn.
  destruct (decide _); cbn.
  - split.
    + replace (Joint.vx j * 0.95 * 0.85) with (0.8075 * Joint.vx j) by lra.
      rewrite Rabs_mult, (Rabs_pos_eq 0.8075) by lra. lra.
    + rewrite Rabs_R0. lra.
  - split.
    + rewrite Rabs_mult, (Rabs_pos_eq 0.95) by lra. lra.
    + rewrite Rabs_mult, (Rabs_pos_eq 0.95) by lra. lra.
Qed.

(** X2. A joint at rest on or above the ground line is a fixed point of
    integration: with both velocity components zero and [y <= GROUND_Y],
    [Joint.update] returns the joint unchanged, whatever [dt] is. *)
Theorem update_at_rest (dt : R) (j : Joint.t) :
  Joint.vx j = 0 -> Joint.vy j = 0 -> Joint.y j <= GROUND_Y ->
  Joint.update dt j = j.
Proof.
  intros Hvx Hvy Hy. destruct j as [x y vx vy nm lim]. cbn in *. subst vx vy.
  unfold Joint.update. cbn.
  destruct (decide _) as [H|H]; cbn.
  - exfalso. lra.
  - unfold Joint.set_x, Joint.set_y, Joint.set_vx, Joint.set_vy. cbn.
    f_equal; lra.
Qed.

Lemma update_at_rest_witness : Joint.update 1 joint_a = joint_a.
Proof.
  apply update_at_rest; cbn; [reflexivity | reflexivity |].
  rewrite GROUND_Y_val. lra.
Defined.

(** ** Bone: what the angle constraint leaves alone *)

Lemma angle_constraint_shape (b : Bone.t) (parent : option Bone.t) (σ : Store) :
  Bone.apply_angle_constraint b parent σ = σ \/
  exists fx fy : R,
    Bone.apply_angle_constraint b parent σ
    = alter (Joint.apply_force fx fy) (Bone.joint2 b) σ.
Proof.
  unfold Bone.apply_angle_constraint.
  destruct (Joint.angle_limits _) as [[lo hi]|]; [| left; reflexivity].
  destruct parent as [p|]; [| left; reflexivity]. cbv zeta.
  destruct (decide _); [| left; reflexivity].
  destruct (decide _); [right; eexists _, _; reflexivity |].
  destruct (decide _); [right; eexists _, _; reflexivity |].
  left; reflexivity.
Qed.

(** X6. The angle constraint does nothing without a parent bone or without
    angle limits on the bone's second joint.  Whatever it does, it writes to
    the second joint only, and there only to the velocity: every other joint
    is unchanged, and no position, name or angle limit changes. *)
Theorem angle_constraint_writes_velocity_only (b : Bone.t)
    (parent : option Bone.t) (σ : Store) :
  (parent = None -> Bone.apply_angle_constraint b parent σ = σ) /\
  (Joint.angle_limits (σ !!! Bone.joint2 b) = None ->
     Bone.apply_angle_constraint b parent σ = σ) /\
  (forall k : string, k <> Bone.joint2 b ->
     Bone.apply_angle_constraint b parent σ !! k = σ !! k) /\
  (forall k : string,
     (λ j, (Joint.x j, Joint.y j, Joint.name j, Joint.angle_limits j))
       <$> Bone.apply_angle_constraint b parent σ !! k
     = (λ j, (Joint.x j, Joint.y j, Joint.name j, Joint.angle_limits j))
       <$> σ !! k).
Proof.
  split; [| split; [| split]].
  - intros ->. unfold Bone.apply_angle_constraint.
    destruct (Joint.angle_limits _) as [[lo hi]|]; reflexivity.
  - intros H. unfold Bone.apply_angle_constraint. rewrite H. reflexivity.
  - intros k Hk.
    destruct (angle_constraint_shape b parent σ) as [-> | (fx & fy & ->)];
      [reflexivity |].
    apply lookup_alter_ne. congruence.
  - intros k.
    destruct (angle_constraint_shape b parent σ) as [-> | (fx & fy & ->)];
      [reflexivity |].
    rewrite lookup_alter.
    destruct (decide (Bone.joint2 b = k)) as [Hk|]; [| reflexivity].
    rewrite Hk. destruct (σ !! k); reflexivity.
Qed.

(** ** Bone: the normalisation loops terminate *)

Lemma wrap_above_stable (n k : nat) (a : R) :
  wrap_above n a <= PI -> wrap_above (n + k) a = wrap_above n a.
Proof.
  revert a. induction n as [|n IH]; intros a Ha.
  - cbn in *. apply wrap_above_id. exact Ha.
  - cbn [wrap_above Nat.add] in *.
    destruct (decide (a > PI)); [apply IH; exact Ha | reflexivity].
Qed.

Lemma wrap_below_stable (n k : nat) (a : R) :
  - PI <= wrap_below n a -> wrap_below (n + k) a = wrap_below n a.
Proof.
  revert a. induction n as [|n IH]; intros a Ha.
  - cbn in *. apply wrap_below_id. exact Ha.
  - cbn [wrap_below Nat.add] in *.
    destruct (decide (a < - PI)); [apply IH; exact Ha | reflexivity].
Qed.

(** X7. The two [while] loops that normalise the relative angle terminate
    for every input: within the iteration bound the model gives them each
    loop has left with its condition false, so any number of further
    iterations returns the same value; the value left is neither above [pi]
    nor below [-pi], and an angle already in that range is returned as it
    is. *)
Theorem normalisation_terminates (a : R) (extra : nat) :
  wrap_above (fuel_above a + extra) a = wrap_above (fuel_above a) a /\
  wrap_below (fuel_below a + extra) a = wrap_below (fuel_below a) a /\
  ~ normalize_angle a > PI /\
  ~ normalize_angle a < - PI /\
  (- PI <= a <= PI -> normalize_angle a = a).
Proof.
  split; [| split; [| split; [| split]]].
  - apply wrap_above_stable, wrap_above_exit, fuel_above_enough.
  - apply wrap_below_stable, wrap_below_exit, fuel_below_enough.
  - destruct (normalize_angle_range a) as [[_ H] _]. lra.
  - destruct (normalize_angle_range a) as [[H _] _]. lra.
  - apply normalize_angle_id.
Qed.

(** ** Skeleton: looking bones up by name *)

(** X8. The name dictionary [apply_angle_constraints] builds resolves a
    name to the last bone of that name in the bone list, holds a name exactly
    when some bone carries it, and a table entry whose child or parent name
    is missing from it is skipped. *)
Theorem bone_dict_resolution (bs : list Bone.t) (nm : string) :
  HumanSkeleton.bone_dict bs !! nm = last (filter (λ b, Bone.name b = nm) bs) /\
  (is_Some (HumanSkeleton.bone_dict bs !! nm) <-> nm ∈ (Bone.name <$> bs)) /\
  (forall b : Bone.t,
     HumanSkeleton.bone_dict bs !! nm = Some b -> Bone.name b = nm /\ b ∈ bs) /\
  (forall (σ : Store) (child parent joint : string),
     HumanSkeleton.bone_dict bs !! child = None \/
     HumanSkeleton.bone_dict bs !! parent = None ->
     HumanSkeleton.constrain_entry (HumanSkeleton.bone_dict bs) σ
       (child, (parent, joint)) = σ).
Proof.
  split; [apply bone_dict_find |]. split; [| split].
  - rewrite bone_dict_find. split.
    + intros [b Hb]. unfold find_bone in Hb.
      apply last_Some_elem_of, list_elem_of_filter in Hb as [Hn Hin].
      apply list_elem_of_fmap. exists b. split; [symmetry; exact Hn | exact Hin].
    + apply find_bone_is_Some.
  - intros b Hb. rewrite bone_dict_find in Hb. unfold find_bone in Hb.
    apply last_Some_elem_of, list_elem_of_filter in Hb. exact Hb.
  - intros σ child parent joint H. unfold HumanSkeleton.constrain_entry.
    destruct H as [-> | ->]; [reflexivity |].
    destruct (_ !! child); reflexivity.
Qed.

(** ** Construction: the fresh skeleton *)

(** The joints of a fresh skeleton with their coordinates written out, in
    the order [create_joints] assigns them. *)
Definition fresh_joints (cx cy sc : R) : list (string * Joint.t) :=
  let at_ (k : string) (x y : R) (lim : option (R * R)) :=
    (k, Joint.init x y k lim) in
  [ at_ "head" cx (cy - 120 * sc / 2 - 20 * sc) None;
    at_ "neck" cx (cy - 120 * sc / 2) (Some (- PI / 16, PI / 16));
    at_ "chest" cx (cy - 120 * sc / 4) (Some (- PI / 6, PI / 6));
    at_ "waist" cx cy (Some (- PI / 6, PI / 6));
    at_ "pelvis" cx (cy + 120 * sc / 4) None;
    at_ "left_shoulder" (cx - 15) (cy - 120 * sc / 4) (Some (- PI / 2, PI));
    at_ "left_elbow" (cx - 15) (cy - 120 * sc / 4 + 60 * sc)
      (Some (- PI / 6, PI * 5 / 6));
    at_ "left_hand" (cx - 15) (cy - 120 * sc / 4 + 60 * sc + 55 * sc)
      (Some (- PI / 3, PI / 3));
    at_ "right_shoulder" (cx + 15) (cy - 120 * sc / 4) (Some (- PI, PI / 2));
    at_ "right_elbow" (cx + 15) (cy - 120 * sc / 4 + 60 * sc)
      (Some (- PI * 5 / 6, PI / 6));
    at_ "right_hand" (cx + 15) (cy - 120 * sc / 4 + 60 * sc + 55 * sc)
      (Some (- PI / 3, PI / 3));
    at_ "left_hip" (cx - 10) (cy + 120 * sc / 4) (Some (- PI / 3, PI / 3));
    at_ "left_knee" (cx - 10) (cy + 120 * sc / 4 + 80 * sc)
      (Some (- PI * 2 / 3, 0));
    at_ "left_ankle" (cx - 10) (cy + 120 * sc / 4 + 80 * sc + 75 * sc)
      (Some (- PI / 3, PI / 3));
    at_ "left_foot" (cx - 10 + 25 * sc / 2)
      (cy + 120 * sc / 4 + 80 * sc + 75 * sc) None;
    at_ "right_hip" (cx + 10) (cy + 120 * sc / 4) (Some (- PI / 3, PI / 3));
    at_ "right_knee" (cx + 10) (cy + 120 * sc / 4 + 80 * sc)
      (Some (- PI * 2 / 3, 0));
    at_ "right_ankle" (cx + 10) (cy + 120 * sc / 4 + 80 * sc + 75 * sc)
      (Some (- PI / 3, PI / 3));
    at_ "right_foot" (cx + 10 + 25 * sc / 2)
      (cy + 120 * sc / 4 + 80 * sc + 75 * sc) None ].

Lemma init_joints (cx cy sc : R) :
  HumanSkeleton.joints (HumanSkeleton.init cx cy sc)
  = list_to_map (fresh_joints cx cy sc).
Proof. reflexivity. Qed.

(** A bone whose rest length is its current length is left alone. *)
Lemma length_constraint_satisfied (b : Bone.t) (σ : Store) :
  Bone.rest_length b = Bone.calculate_distance b σ ->
  Bone.apply_length_constraint b σ = σ.
Proof.
  intros Hr. unfold Bone.apply_length_constraint. cbv zeta.
  unfold Bone.calculate_distance, Bone.distance in Hr. cbv zeta in Hr.
  rewrite <- Hr.
  destruct (decide _) as [Hpos|]; [| reflexivity].
  assert (Hx : forall d : R,
            d * ((Bone.rest_length b - Bone.rest_length b)
                 / Bone.rest_length b / 2) = 0)
    by (intros d; field; lra).
  rewrite !Hx.
  assert (Hid : forall (f : Joint.t -> Joint.t) (k : string) (m : Store),
            (forall j, f j = j) -> alter f k m = m)
    by (intros f k m Hf; apply alter_id; intros j _; apply Hf).
  rewrite !Hid; [reflexivity | | | |];
    intros [x y vx vy nm lim];
    unfold Joint.set_x, Joint.set_y; cbn; f_equal; lra.
Qed.

Lemma distance_pass_satisfied (bs : list Bone.t) (σ : Store) :
  Forall (λ b, Bone.rest_length b = Bone.calculate_distance b σ) bs ->
  foldl (λ σ0 bone, Bone.apply_length_constraint bone σ0) σ bs = σ.
Proof.
  induction 1 as [|b bs Hb _ IH]; [reflexivity |].
  cbn [foldl]. rewrite (length_constraint_satisfied b σ Hb). exact IH.
Qed.

Lemma create_bone_rest (s : HumanSkeleton.t) (k1 k2 nm : string) :
  Bone.rest_length (HumanSkeleton.create_bone s k1 k2 nm)
  = Bone.calculate_distance (HumanSkeleton.create_bone s k1 k2 nm)
      (HumanSkeleton.joints s).
Proof.
  unfold HumanSkeleton.create_bone, Bone.init, Bone.calculate_distance,
    Bone.distance. cbn.
  destruct (decide _); reflexivity.
Qed.

Lemma append_bone_rest (k1 k2 nm : string) (s : HumanSkeleton.t) :
  Forall (λ b, Bone.rest_length b
               = Bone.calculate_distance b (HumanSkeleton.joints s))
    (HumanSkeleton.bones s) ->
  Forall (λ b, Bone.rest_length b
               = Bone.calculate_distance b
                   (HumanSkeleton.joints (HumanSkeleton.append_bone k1 k2 nm s)))
    (HumanSkeleton.bones (HumanSkeleton.append_bone k1 k2 nm s)).
Proof.
  intros H. unfold HumanSkeleton.append_bone.
  cbn [HumanSkeleton.bones HumanSkeleton.joints HumanSkeleton.set_bones].
  apply Forall_app. split; [exact H |].
  apply Forall_singleton. apply create_bone_rest.
Qed.

Lemma create_bones_rest (s : HumanSkeleton.t) :
  HumanSkeleton.bones s = [] ->
  Forall (λ b, Bone.rest_length b
               = Bone.calculate_distance b
                   (HumanSkeleton.joints (HumanSkeleton.create_bones s)))
    (HumanSkeleton.bones (HumanSkeleton.create_bones s)).
Proof.
  intros Hnil. unfold HumanSkeleton.create_bones. cbv zeta.
  repeat apply append_bone_rest.
  rewrite Hnil. apply Forall_nil. exact I.
Qed.

Lemma init_rest (cx cy sc : R) :
  Forall (λ b, Bone.rest_length b
               = Bone.calculate_distance b
                   (HumanSkeleton.joints (HumanSkeleton.init cx cy sc)))
    (HumanSkeleton.bones (HumanSkeleton.init cx cy sc)).
Proof.
  unfold HumanSkeleton.init. cbv zeta. apply create_bones_rest. reflexivity.
Qed.

(** X9. A freshly built skeleton is at rest and in equilibrium: every joint
    is stored under its own name with zero velocity, every bone's rest length
    is the current distance of its two joints, and so the distance
    constraints of [update], applied bone after bone, change nothing. *)
Theorem fresh_skeleton_in_equilibrium (cx cy sc : R) :
  let s := HumanSkeleton.init cx cy sc in
  (forall (k : string) (j : Joint.t),
     HumanSkeleton.joints s !! k = Some j ->
     Joint.name j = k /\ Joint.vx j = 0 /\ Joint.vy j = 0) /\
  Forall (λ b, Bone.rest_length b
               = Bone.calculate_distance b (HumanSkeleton.joints s))
    (HumanSkeleton.bones s) /\
  foldl (λ σ bone, Bone.apply_length_constraint bone σ)
    (HumanSkeleton.joints s) (HumanSkeleton.bones s)
  = HumanSkeleton.joints s.
Proof.
  cbv zeta. split; [| split].
  - intros k j Hk. rewrite init_joints in Hk.
    apply elem_of_list_to_map_2 in Hk. unfold fresh_joints in Hk.
    repeat (apply elem_of_cons in Hk as [Hk | Hk];
            [injection Hk as -> ->; repeat split; reflexivity |]).
    apply elem_of_nil in Hk. contradiction.
  - apply init_rest.
  - apply distance_pass_satisfied, init_rest.
Qed.

Lemma distance_along_y (σ : Store) (h1 h2 : string) (a : R) :
  Joint.x (σ !!! h2) - Joint.x (σ !!! h1) = 0 ->
  Joint.y (σ !!! h2) - Joint.y (σ !!! h1) = a ->
  Bone.distance σ h1 h2 = Rabs a.
Proof.
  intros Hx Hy. unfold Bone.distance. cbv zeta. rewrite Hx, Hy.
  replace (0 * 0 + a * a) with (Rsqr a) by (unfold Rsqr; lra).
  apply sqrt_Rsqr_abs.
Qed.

Lemma distance_along_x (σ : Store) (h1 h2 : string) (a : R) :
  Joint.x (σ !!! h2) - Joint.x (σ !!! h1) = a ->
  Joint.y (σ !!! h2) - Joint.y (σ !!! h1) = 0 ->
  Bone.distance σ h1 h2 = Rabs a.
Proof.
  intros Hx Hy. unfold Bone.distance. cbv zeta. rewrite Hx, Hy.
  replace (a * a + 0 * 0) with (Rsqr a) by (unfold Rsqr; lra).
  apply sqrt_Rsqr_abs.
Qed.

(** The rest lengths of a fresh skeleton of scale [sc], in bone order. *)
Definition fresh_rest_lengths (sc : R) : list R :=
  [ Rabs (20 * sc); Rabs (30 * sc); Rabs (30 * sc); Rabs (30 * sc);
    15; Rabs (60 * sc); Rabs (55 * sc);
    15; Rabs (60 * sc); Rabs (55 * sc);
    10; Rabs (80 * sc); Rabs (75 * sc); Rabs (12.5 * sc);
    10; Rabs (80 * sc); Rabs (75 * sc); Rabs (12.5 * sc) ].

Ltac along_y a :=
  etransitivity;
  [ apply (distance_along_y _ _ _ a); rewrite init_joints; vm_compute; lra
  | reflexivity ].

Ltac along_x a :=
  etransitivity;
  [ apply (distance_along_x _ _ _ a); rewrite init_joints; vm_compute; lra
  | first [ reflexivity
          | rewrite Rabs_left by lra; lra
          | rewrite Rabs_pos_eq by lra; lra ] ].

Lemma init_rest_lengths (cx cy sc : R) :
  Bone.rest_length <$> HumanSkeleton.bones (HumanSkeleton.init cx cy sc)
  = fresh_rest_lengths sc.
Proof.
  set (σ := HumanSkeleton.joints (HumanSkeleton.init cx cy sc)).
  transitivity ((λ t : string * string * string, Bone.distance σ t.1.1 t.1.2)
                  <$> bone_layout).
  { rewrite <- (init_layout cx cy sc). unfold layout_of.
    rewrite <- list_fmap_compose. apply Forall_fmap_ext_1.
    exact (init_rest cx cy sc). }
  unfold bone_layout, fresh_rest_lengths. cbn [fmap list_fmap fst snd].
  subst σ.
  apply (f_equal2 cons). { along_y (20 * sc). }
  apply (f_equal2 cons). { along_y (30 * sc). }
  apply (f_equal2 cons). { along_y (30 * sc). }
  apply (f_equal2 cons). { along_y (30 * sc). }
  apply (f_equal2 cons). { along_x (-15). }
  apply (f_equal2 cons). { along_y (60 * sc). }
  apply (f_equal2 cons). { along_y (55 * sc). }
  apply (f_equal2 cons). { along_x (15). }
  apply (f_equal2 cons). { along_y (60 * sc). }
  apply (f_equal2 cons). { along_y (55 * sc). }
  apply (f_equal2 cons). { along_x (-10). }
  apply (f_equal2 cons). { along_y (80 * sc). }
  apply (f_equal2 cons). { along_y (75 * sc). }
  apply (f_equal2 cons). { along_x (12.5 * sc). }
  apply (f_equal2 cons). { along_x (10). }
  apply (f_equal2 cons). { along_y (80 * sc). }
  apply (f_equal2 cons). { along_y (75 * sc). }
  apply (f_equal2 cons). { along_x (12.5 * sc). }
  reflexivity.
Qed.

(** X10. The rest lengths of a fresh skeleton do not depend on where it is
    built and grow with the magnitude of the scale: they are 20, 30, 60, 55,
    80, 75 and 12.5 times [|scale|] for head, spine, arm, leg and foot bones,
    and the constants 15 and 10 for the clavicle and pelvis connectors.  All
    of them are strictly positive exactly when the scale is not zero. *)
Theorem fresh_rest_lengths_positive (cx cy sc : R) :
  Bone.rest_length <$> HumanSkeleton.bones (HumanSkeleton.init cx cy sc)
    = fresh_rest_lengths sc /\
  (sc <> 0 <->
   Forall (λ b, 0 < Bone.rest_length b)
     (HumanSkeleton.bones (HumanSkeleton.init cx cy sc))).
Proof.
  split; [apply init_rest_lengths |].
  assert (Hiff :
    Forall (λ b, 0 < Bone.rest_length b)
      (HumanSkeleton.bones (HumanSkeleton.init cx cy sc)) <->
    Forall (λ l : R, 0 < l) (fresh_rest_lengths sc)).
  { rewrite <- (init_rest_lengths cx cy sc). symmetry. apply Forall_fmap. }
  rewrite Hiff. unfold fresh_rest_lengths. split.
  - intros Hsc.
    assert (Hk : forall c : R, c <> 0 -> 0 < Rabs (c * sc))
      by (intros c Hc; apply Rabs_pos_lt; nra).
    repeat (apply Forall_cons; split; [first [apply Hk | idtac]; lra |]).
    apply Forall_nil. exact I.
  - intros H Hsc. apply Forall_cons in H as [H _].
    rewrite Hsc, Rmult_0_r, Rabs_R0 in H. lra.
Qed.

(** ** The update over many frames *)

(** X11. An update writes the joints and the gait phase and nothing else:
    scale, body proportions, body mass, bone list, walking flag, walk speed,
    step length and the two gains come out as they went in. *)
Theorem update_writes_motion_only (dt : R) (s : HumanSkeleton.t) :
  let s' := HumanSkeleton.update dt s in
  HumanSkeleton.scale s' = HumanSkeleton.scale s /\
  HumanSkeleton.head_size s' = HumanSkeleton.head_size s /\
  HumanSkeleton.torso_length s' = HumanSkeleton.torso_length s /\
  HumanSkeleton.upper_arm_length s' = HumanSkeleton.upper_arm_length s /\
  HumanSkeleton.lower_arm_length s' = HumanSkeleton.lower_arm_length s /\
  HumanSkeleton.upper_leg_length s' = HumanSkeleton.upper_leg_length s /\
  HumanSkeleton.lower_leg_length s' = HumanSkeleton.lower_leg_length s /\
  HumanSkeleton.foot_length s' = HumanSkeleton.foot_length s /\
  HumanSkeleton.body_mass s' = HumanSkeleton.body_mass s /\
  HumanSkeleton.bones s' = HumanSkeleton.bones s /\
  HumanSkeleton.walking s' = HumanSkeleton.walking s /\
  HumanSkeleton.walk_speed s' = HumanSkeleton.walk_speed s /\
  HumanSkeleton.step_length s' = HumanSkeleton.step_length s /\
  HumanSkeleton.standing_balance_force s'
    = HumanSkeleton.standing_balance_force s /\
  HumanSkeleton.posture_force s' = HumanSkeleton.posture_force s.
Proof.
  cbv zeta. pose proof (fixed_part_update dt s) as Hfix.
  assert (Hw : HumanSkeleton.walking (HumanSkeleton.update dt s)
               = HumanSkeleton.walking s).
  { rewrite update_unfold.
    rewrite !(proj1 (proj2 (relax_once_frame _))).
    apply (frame_force_phase dt s). }
  repeat split; try exact Hw.
  - exact (f_equal HumanSkeleton.scale Hfix).
  - exact (f_equal HumanSkeleton.head_size Hfix).
  - exact (f_equal HumanSkeleton.torso_length Hfix).
  - exact (f_equal HumanSkeleton.upper_arm_length Hfix).
  - exact (f_equal HumanSkeleton.lower_arm_length Hfix).
  - exact (f_equal HumanSkeleton.upper_leg_length Hfix).
  - exact (f_equal HumanSkeleton.lower_leg_length Hfix).
  - exact (f_equal HumanSkeleton.foot_length Hfix).
  - exact (f_equal HumanSkeleton.body_mass Hfix).
  - exact (f_equal HumanSkeleton.bones Hfix).
  - exact (f_equal HumanSkeleton.walk_speed Hfix).
  - exact (f_equal HumanSkeleton.step_length Hfix).
  - exact (f_equal HumanSkeleton.standing_balance_force Hfix).
  - exact (f_equal HumanSkeleton.posture_force Hfix).
Qed.

Lemma update_phase (dt : R) (s : HumanSkeleton.t) :
  HumanSkeleton.walking (HumanSkeleton.update dt s) = HumanSkeleton.walking s /\
  HumanSkeleton.walk_speed (HumanSkeleton.update dt s)
    = HumanSkeleton.walk_speed s /\
  HumanSkeleton.walk_cycle_time (HumanSkeleton.update dt s)
    = (if HumanSkeleton.walking s
       then HumanSkeleton.walk_cycle_time s + dt * HumanSkeleton.walk_speed s
       else HumanSkeleton.walk_cycle_time s).
Proof.
  split; [| split].
  - rewrite update_unfold, !(proj1 (proj2 (relax_once_frame _))).
    apply (frame_force_phase dt s).
  - exact (f_equal HumanSkeleton.walk_speed (fixed_part_update dt s)).
  - rewrite update_unfold, !(proj2 (proj2 (relax_once_frame _))).
    apply (frame_force_phase dt s).
Qed.

(** X12. Over any number of frames of the same length no update changes the
    walking flag or the walk speed.  While the skeleton walks, the stored
    gait phase after [n] frames is what [n] successive additions of
    [dt * walk_speed] make of it: one addition a frame, and the stored value
    is never reduced modulo a full turn.  While it stands the stored phase
    is not written. *)
Theorem phase_over_frames (dt : R) (n : nat) (s : HumanSkeleton.t) :
  let s' := Nat.iter n (HumanSkeleton.update dt) s in
  HumanSkeleton.walking s' = HumanSkeleton.walking s /\
  HumanSkeleton.walk_speed s' = HumanSkeleton.walk_speed s /\
  HumanSkeleton.walk_cycle_time s'
    = (if HumanSkeleton.walking s
       then Nat.iter n (λ t, t + dt * HumanSkeleton.walk_speed s)
              (HumanSkeleton.walk_cycle_time s)
       else HumanSkeleton.walk_cycle_time s).
Proof.
  cbv zeta. induction n as [|n (IHw & IHs & IHc)].
  - cbn. repeat split. destruct (HumanSkeleton.walking s); reflexivity.
  - rewrite !Nat.iter_succ.
    set (sn := Nat.iter n (HumanSkeleton.update dt) s) in *.
    destruct (update_phase dt sn) as (Hw & Hs & Hc).
    rewrite Hw, Hs, Hc, IHw, IHs, IHc.
    repeat split. destruct (HumanSkeleton.walking s); reflexivity.
Qed.

(** ** What stays true of every state the program reaches *)

(** What identifies a joint: its name and its angle limits. *)
Definition identity (j : Joint.t) : string * option (R * R) :=
  (Joint.name j, Joint.angle_limits j).

(** The angle limits [create_joints] gives each key. *)
Definition joint_limits : list (string * option (R * R)) :=
  [ ("head", None); ("neck", Some (- PI / 16, PI / 16));
    ("chest", Some (- PI / 6, PI / 6)); ("waist", Some (- PI / 6, PI / 6));
    ("pelvis", None);
    ("left_shoulder", Some (- PI / 2, PI));
    ("left_elbow", Some (- PI / 6, PI * 5 / 6));
    ("left_hand", Some (- PI / 3, PI / 3));
    ("right_shoulder", Some (- PI, PI / 2));
    ("right_elbow", Some (- PI * 5 / 6, PI / 6));
    ("right_hand", Some (- PI / 3, PI / 3));
    ("left_hip", Some (- PI / 3, PI / 3));
    ("left_knee", Some (- PI * 2 / 3, 0));
    ("left_ankle", Some (- PI / 3, PI / 3));
    ("left_foot", None);
    ("right_hip", Some (- PI / 3, PI / 3));
    ("right_knee", Some (- PI * 2 / 3, 0));
    ("right_ankle", Some (- PI / 3, PI / 3));
    ("right_foot", None) ].

(** The same as a dictionary. *)
Definition limits_by_key : gmap string (option (R * R)) :=
  list_to_map joint_limits.

(** Key by key, the name and limits a freshly built skeleton has. *)
Definition fresh_identities : gmap string (string * option (R * R)) :=
  list_to_map ((λ e, (e.1, (e.1, e.2))) <$> joint_limits).

(** A write that keeps some view of every joint keeps that view of the
    store. *)
Lemma alter_keeps {B : Type} (g : Joint.t -> B) (f : Joint.t -> Joint.t)
    (k : string) (σ : Store) :
  (forall j : Joint.t, g (f j) = g j) ->
  g <$> alter f k σ = g <$> σ.
Proof.
  intros Hf. apply map_eq. intros k'. rewrite !lookup_fmap.
  destruct (decide (k = k')) as [->|Hne].
  - rewrite lookup_alter_eq. destruct (σ !! k'); cbn; [rewrite Hf |]; reflexivity.
  - rewrite lookup_alter_ne by exact Hne. reflexivity.
Qed.

Lemma identity_alter (f : Joint.t -> Joint.t) (k : string) (σ : Store) :
  (forall j : Joint.t, identity (f j) = identity j) ->
  identity <$> alter f k σ = identity <$> σ.
Proof. apply alter_keeps. Qed.

Lemma identity_force (fx fy : R) (k : string) (σ : Store) :
  identity <$> alter (Joint.apply_force fx fy) k σ = identity <$> σ.
Proof. apply identity_alter. reflexivity. Qed.

Lemma identity_foot (g : R) (k : string) (σ : Store) :
  identity <$> alter (foot_rule g) k σ = identity <$> σ.
Proof.
  apply identity_alter. intros j. unfold foot_rule.
  destruct (decide _); reflexivity.
Qed.

Lemma identity_length_constraint (b : Bone.t) (σ : Store) :
  identity <$> Bone.apply_length_constraint b σ = identity <$> σ.
Proof.
  unfold Bone.apply_length_constraint. cbv zeta.
  destruct (decide _); [| reflexivity].
  rewrite !identity_alter by reflexivity. reflexivity.
Qed.

Lemma identity_angle_constraint (b : Bone.t) (parent : option Bone.t)
    (σ : Store) :
  identity <$> Bone.apply_angle_constraint b parent σ = identity <$> σ.
Proof.
  destruct (angle_constraint_shape b parent σ) as [-> | (fx & fy & ->)];
    [reflexivity | apply identity_force].
Qed.

Lemma identity_distance_pass (bs : list Bone.t) (σ : Store) :
  identity <$> distance_pass bs σ = identity <$> σ.
Proof.
  revert σ. induction bs as [|b bs IH]; intros σ; [reflexivity |].
  cbn [distance_pass]. rewrite IH. apply identity_length_constraint.
Qed.

Lemma identity_angle_pass (bs : list Bone.t) (pairs : list (string * string))
    (σ : Store) :
  identity <$> angle_pass bs pairs σ = identity <$> σ.
Proof.
  revert σ. induction pairs as [|e pairs IH]; intros σ; [reflexivity |].
  cbn [angle_pass]. rewrite IH. unfold angle_step.
  destruct (find_bone e.1 bs); [| reflexivity].
  destruct (find_bone e.2 bs); [| reflexivity].
  apply identity_angle_constraint.
Qed.

Lemma identity_gravity_pass (dt : R) (bs : list Bone.t) (σ : Store) :
  identity <$> gravity_pass dt bs σ = identity <$> σ.
Proof.
  revert σ. induction bs as [|b bs IH]; intros σ; [reflexivity |].
  cbn [gravity_pass]. rewrite IH. unfold add_velocity_y.
  rewrite !identity_force. reflexivity.
Qed.

Lemma identity_integrate (dt : R) (σ : Store) :
  identity <$> (Joint.update dt <$> σ) = identity <$> σ.
Proof.
  rewrite <- map_fmap_compose. apply map_fmap_ext. intros k j _.
  unfold compose, Joint.update. cbv zeta.
  destruct (decide _); reflexivity.
Qed.

Lemma identity_force_phase (dt : R) (s : HumanSkeleton.t) :
  identity <$> HumanSkeleton.joints (force_phase dt s)
  = identity <$> HumanSkeleton.joints s.
Proof.
  unfold force_phase. destruct (HumanSkeleton.walking s).
  - rewrite walking_joints. cbv zeta. rewrite !identity_force. reflexivity.
  - rewrite standing_joints. cbv zeta.
    destruct (decide _); rewrite !identity_force, !identity_foot; reflexivity.
Qed.

(** No update renames a joint or changes its angle limits. *)
Lemma identity_update (dt : R) (s : HumanSkeleton.t) :
  identity <$> HumanSkeleton.joints (HumanSkeleton.update dt s)
  = identity <$> HumanSkeleton.joints s.
Proof.
  rewrite update_joints. unfold relaxation.
  do 3 rewrite identity_angle_pass, identity_distance_pass.
  rewrite identity_gravity_pass, identity_integrate.
  apply identity_force_phase.
Qed.

Lemma init_identities (cx cy sc : R) :
  identity <$> HumanSkeleton.joints (HumanSkeleton.init cx cy sc)
  = fresh_identities.
Proof. rewrite init_joints. vm_compute. reflexivity. Qed.

Lemma reachable_identities (s : HumanSkeleton.t) :
  reachable s -> identity <$> HumanSkeleton.joints s = fresh_identities.
Proof.
  induction 1 as [x0 y0 sc | dt s _ IH | s _ IH | s _ IH].
  - apply init_identities.
  - rewrite identity_update. exact IH.
  - exact IH.
  - exact IH.
Qed.

Lemma layout_ends_are_keys :
  Forall (λ e : string * string * string,
            e.1.1 ∈ joint_names /\ e.1.2 ∈ joint_names) bone_layout.
Proof.
  unfold bone_layout, joint_names.
  repeat (apply Forall_cons; split;
          [split; cbn [fst snd]; set_solver |]).
  apply Forall_nil. exact I.
Qed.

(** X13. In every state the program reaches (the constructor, then any
    sequence of updates and of start and stop signals) the joint dictionary
    has exactly the 19 keys the constructor assigned, every joint still
    carries its key as its name and the angle limits it was built with,
    both ends of every bone are keys of the dictionary (so no lookup of the
    update can fail), the bones are the 18 of the constructor in its order,
    and the gains, the body mass and the walk speed are the constructor's
    100, 50, 70 and 2. *)
Theorem reachable_invariants (s : HumanSkeleton.t) :
  reachable s ->
  dom (HumanSkeleton.joints s) = list_to_set joint_names /\
  size (HumanSkeleton.joints s) = 19%nat /\
  (forall (k : string) (j : Joint.t),
     HumanSkeleton.joints s !! k = Some j ->
     Joint.name j = k /\
     Some (Joint.angle_limits j) = limits_by_key !! k) /\
  Forall (λ b, is_Some (HumanSkeleton.joints s !! Bone.joint1 b) /\
               is_Some (HumanSkeleton.joints s !! Bone.joint2 b))
    (HumanSkeleton.bones s) /\
  layout_of (HumanSkeleton.bones s) = bone_layout /\
  HumanSkeleton.standing_balance_force s = 100 /\
  HumanSkeleton.posture_force s = 50 /\
  HumanSkeleton.body_mass s = 70 /\
  HumanSkeleton.walk_speed s = 2.
Proof.
  intros Hs.
  pose proof (reachable_keys s Hs) as Hdom.
  pose proof (reachable_identities s Hs) as Hid.
  destruct (reachable_gains s Hs) as (Hg & Hp & Hm & Hw & Hl).
  split; [exact Hdom |].
  split.
  { rewrite <- size_dom, Hdom. vm_compute. reflexivity. }
  split.
  { intros k j Hk.
    assert (Hj : fresh_identities !! k = Some (identity j)).
    { rewrite <- Hid, lookup_fmap, Hk. reflexivity. }
    assert (Hall : map_Forall (λ k' v, v.1 = k' /\
                       Some v.2 = limits_by_key !! k')
                     fresh_identities).
    { unfold fresh_identities, joint_limits. cbn [fmap list_fmap fst snd].
      cbn [list_to_map foldr].
      repeat (apply map_Forall_insert_2;
              [split; [reflexivity | vm_compute; reflexivity] |]).
      apply map_Forall_empty. }
    exact (Hall k (identity j) Hj). }
  split.
  { assert (Hends : Forall (λ e : string * string * string,
                      is_Some (HumanSkeleton.joints s !! e.1.1) /\
                      is_Some (HumanSkeleton.joints s !! e.1.2))
                      (layout_of (HumanSkeleton.bones s))).
    { rewrite Hl. eapply Forall_impl; [exact layout_ends_are_keys |].
      intros e [H1 H2].
      split; apply elem_of_dom; rewrite Hdom; apply elem_of_list_to_set;
        assumption. }
    unfold layout_of in Hends. apply Forall_fmap in Hends.
    eapply Forall_impl; [exact Hends |]. intros b Hb. exact Hb. }
  repeat split; assumption.
Qed.

(** The theorem on the skeleton built at (600, 400) with scale 1, told to
    walk and updated by one frame of 1/60 s. *)
Lemma reachable_invariants_witness :
  dom (HumanSkeleton.joints
         (HumanSkeleton.update (1 / 60)
            (HumanSkeleton.start_walking (HumanSkeleton.init 600 400 1))))
  = list_to_set joint_names.
Proof.
  exact (proj1 (reachable_invariants _
                  (reach_update _ _ (reach_start _ (reach_init 600 400 1))))).
Defined.

(** ** The two force generators *)

(** Everything about a joint but its velocity. *)
Definition placement (j : Joint.t) : R * R * string * option (R * R) :=
  (Joint.x j, Joint.y j, Joint.name j, Joint.angle_limits j).

Lemma clamp_range (c v : R) : 0 <= c -> - c <= clamp c v <= c.
Proof.
  intros Hc. unfold clamp, Rmax, Rmin.
  destruct (Rle_dec c v), (Rle_dec (- c) _); lra.
Qed.

Lemma placement_force (fx fy : R) (k : string) (σ : Store) :
  placement <$> alter (Joint.apply_force fx fy) k σ = placement <$> σ.
Proof. apply alter_keeps. reflexivity. Qed.

Lemma placement_foot (g : R) (k : string) (σ : Store) :
  placement <$> alter (foot_rule g) k σ = placement <$> σ.
Proof.
  apply alter_keeps. intros j. unfold foot_rule.
  destruct (decide _); reflexivity.
Qed.

Ltac through_alters :=
  repeat first
    [ rewrite lookup_alter_eq
    | rewrite lookup_alter_ne by (done || congruence) ].

(** X14. The standing controller moves nothing: position, name and angle
    limits of every joint are what they were.  It writes velocities of the
    two feet, the pelvis, the chest and the head only; every other joint is
    unchanged.  The chest gets 0.3 times the posture gain times its error
    from the point half a torso length above the pelvis, clamped to 50 on
    each axis. *)
Theorem standing_controller_frame (s : HumanSkeleton.t) :
  let σ := HumanSkeleton.joints s in
  let σ' := HumanSkeleton.joints (HumanSkeleton.maintain_standing_posture s) in
  let p := HumanSkeleton.posture_force s in
  let pelvis := σ !!! "pelvis" in
  placement <$> σ' = placement <$> σ /\
  (forall k : string,
     k ∉ ["left_foot"; "right_foot"; "pelvis"; "chest"; "head"] ->
     σ' !! k = σ !! k) /\
  σ' !! "chest" =
    (λ chest,
       Joint.apply_force
         (clamp 50 (0.3 * p * (Joint.x pelvis - Joint.x chest)))
         (clamp 50 (0.3 * p * (Joint.y pelvis - HumanSkeleton.torso_length s / 2
                               - Joint.y chest)))
         chest)
    <$> σ !! "chest".
Proof.
  cbv zeta. rewrite standing_joints. cbv zeta.
  split; [| split].
  - destruct (decide _);
      rewrite !placement_force, !placement_foot; reflexivity.
  - intros k Hk.
    assert (k <> "left_foot" /\ k <> "right_foot" /\ k <> "pelvis"
            /\ k <> "chest" /\ k <> "head") as (H1 & H2 & H3 & H4 & H5).
    { repeat split; intros ->; apply Hk; set_solver. }
    destruct (decide _); through_alters; reflexivity.
  - destruct (decide _); through_alters;
      (destruct (HumanSkeleton.joints s !! "chest") as [c|] eqn:Hc;
       [| reflexivity]);
      rewrite (lookup_total_correct _ _ _ Hc);
      cbn; do 2 f_equal; f_equal; lra.
Qed.

Lemma foot_rule_bounds (g : R) (j : Joint.t) :
  0 <= g ->
  Joint.vx (foot_rule g j) = Joint.vx j /\
  Joint.vy j <= Joint.vy (foot_rule g j) <= Joint.vy j + 100.
Proof.
  intros Hg. unfold foot_rule.
  destruct (decide (Joint.y j < GROUND_Y)) as [Hy|Hy]; [| cbn; lra].
  cbn. unfold py_min. destruct (decide _); split; try lra; nra.
Qed.

Lemma force_bounds (c fx fy : R) (j : Joint.t) :
  - c <= fx <= c -> - c <= fy <= c ->
  Rabs (Joint.vx (Joint.apply_force fx fy j) - Joint.vx j) <= c /\
  Rabs (Joint.vy (Joint.apply_force fx fy j) - Joint.vy j) <= c.
Proof.
  intros Hx Hy. cbn. split; apply Rabs_le; lra.
Qed.

(** X15. With a foot gain that is not negative, the standing controller
    changes velocities by bounded amounts only: a foot keeps its horizontal
    velocity and gains between 0 and 100 of vertical velocity (towards the
    ground line, never away from it), and no joint's velocity changes by more
    than 300 on either axis, however far the skeleton is from its posture. *)
Theorem standing_controller_bounded (s : HumanSkeleton.t) :
  0 <= HumanSkeleton.standing_balance_force s ->
  let σ := HumanSkeleton.joints s in
  let σ' := HumanSkeleton.joints (HumanSkeleton.maintain_standing_posture s) in
  (forall (k : string) (j j' : Joint.t),
     k ∈ ["left_foot"; "right_foot"] ->
     σ !! k = Some j -> σ' !! k = Some j' ->
     Joint.vx j' = Joint.vx j /\
     Joint.vy j <= Joint.vy j' <= Joint.vy j + 100) /\
  (forall (k : string) (j j' : Joint.t),
     σ !! k = Some j -> σ' !! k = Some j' ->
     Rabs (Joint.vx j' - Joint.vx j) <= 300 /\
     Rabs (Joint.vy j' - Joint.vy j) <= 300).
Proof.
  intros Hg. cbv zeta. rewrite standing_joints. cbv zeta.
  set (g := HumanSkeleton.standing_balance_force s) in *.
  assert (Hfoot : forall j : Joint.t,
            Rabs (Joint.vx (foot_rule g j) - Joint.vx j) <= 300 /\
            Rabs (Joint.vy (foot_rule g j) - Joint.vy j) <= 300).
  { intros j. destruct (foot_rule_bounds g j Hg) as [Hx Hy].
    split; apply Rabs_le; lra. }
  assert (Hsame : forall j : Joint.t,
            Rabs (Joint.vx j - Joint.vx j) <= 300 /\
            Rabs (Joint.vy j - Joint.vy j) <= 300).
  { intros j. split; apply Rabs_le; lra. }
  split.
  - intros k j j' Hk Hj Hj'.
    assert (k = "left_foot" \/ k = "right_foot") as [-> | ->].
    { apply elem_of_cons in Hk as [-> | Hk]; [left; reflexivity |].
      apply elem_of_cons in Hk as [-> | Hk]; [right; reflexivity |].
      apply elem_of_nil in Hk. contradiction. }
    + destruct (decide _); revert Hj'; through_alters; rewrite Hj; cbn;
        intros [= <-]; apply foot_rule_bounds; exact Hg.
    + destruct (decide _); revert Hj'; through_alters; rewrite Hj; cbn;
        intros [= <-]; apply foot_rule_bounds; exact Hg.
  - intros k j j' Hj Hj'.
    destruct (decide (k = "head")) as [-> | H5].
    { destruct (decide _); revert Hj'; through_alters; rewrite Hj; cbn;
        intros [= <-]; [| apply Hsame].
      apply (force_bounds 300); 
        match goal with |- _ <= clamp 20 ?v <= _ =>
          pose proof (clamp_range 20 v ltac:(lra)); lra end. }
    destruct (decide (k = "chest")) as [-> | H4].
    { destruct (decide _); revert Hj'; through_alters; rewrite Hj; cbn;
        intros [= <-];
        apply (force_bounds 300);
        match goal with |- _ <= clamp 50 ?v <= _ =>
          pose proof (clamp_range 50 v ltac:(lra)); lra end. }
    destruct (decide (k = "pelvis")) as [-> | H3].
    { destruct (decide _); revert Hj'; through_alters; rewrite Hj; cbn;
        intros [= <-];
        apply (force_bounds 300);
        match goal with |- _ <= clamp 300 ?v <= _ =>
          pose proof (clamp_range 300 v ltac:(lra)); lra end. }
    destruct (decide (k = "right_foot")) as [-> | H2].
    { destruct (decide _); revert Hj'; through_alters; rewrite Hj; cbn;
        intros [= <-]; apply Hfoot. }
    destruct (decide (k = "left_foot")) as [-> | H1].
    { destruct (decide _); revert Hj'; through_alters; rewrite Hj; cbn;
        intros [= <-]; apply Hfoot. }
    destruct (decide _); revert Hj'; through_alters; rewrite Hj;
      intros [= <-]; apply Hsame.
Qed.

(** The theorem on the skeleton built at (600, 400) with scale 1, whose foot
    gain is 100. *)
Lemma standing_controller_bounded_witness :
  0 <= HumanSkeleton.standing_balance_force (HumanSkeleton.init 600 400 1) /\
  (forall (k : string) (j j' : Joint.t),
     HumanSkeleton.joints (HumanSkeleton.init 600 400 1) !! k = Some j ->
     HumanSkeleton.joints
       (HumanSkeleton.maintain_standing_posture (HumanSkeleton.init 600 400 1))
       !! k = Some j' ->
     Rabs (Joint.vx j' - Joint.vx j) <= 300 /\
     Rabs (Joint.vy j' - Joint.vy j) <= 300).
Proof.
  assert (Hg : 0 <= HumanSkeleton.standing_balance_force
                      (HumanSkeleton.init 600 400 1)).
  { change (HumanSkeleton.standing_balance_force (HumanSkeleton.init 600 400 1))
      with 100.
    lra. }
  split; [exact Hg |].
  exact (proj2 (standing_controller_bounded (HumanSkeleton.init 600 400 1) Hg)).
Defined.

(** X16. The gait force generator moves nothing: position, name and angle
    limits of every joint are what they were.  It writes velocities of the
    two feet, the two hands and the pelvis only.  The pelvis gets two
    forces, one after the other: the forward drive [5 * scale] on the
    horizontal axis, without a clamp, and then the bounce
    [sin(phase * 2) * (5 * scale) * 2], clamped to 20, on the vertical
    axis. *)
Theorem walking_forces_frame (s : HumanSkeleton.t) :
  let σ := HumanSkeleton.joints s in
  let σ' := HumanSkeleton.joints (HumanSkeleton.apply_walking_forces s) in
  let sc := HumanSkeleton.scale s in
  let phase := py_mod (HumanSkeleton.walk_cycle_time s) (2 * PI) in
  placement <$> σ' = placement <$> σ /\
  (forall k : string,
     k ∉ ["left_foot"; "right_foot"; "left_hand"; "right_hand"; "pelvis"] ->
     σ' !! k = σ !! k) /\
  σ' !! "pelvis" =
    (λ pelvis,
       Joint.apply_force 0 (clamp 20 (sin (phase * 2) * (5 * sc) * 2))
         (Joint.apply_force (5 * sc) 0 pelvis))
    <$> σ !! "pelvis".
Proof.
  cbv zeta. rewrite walking_joints. cbv zeta.
  split; [| split].
  - rewrite !placement_force. reflexivity.
  - intros k Hk.
    assert (k <> "left_foot" /\ k <> "right_foot" /\ k <> "left_hand"
            /\ k <> "right_hand" /\ k <> "pelvis") as (H1 & H2 & H3 & H4 & H5).
    { repeat split; intros ->; apply Hk; set_solver. }
    through_alters. reflexivity.
  - through_alters.
    destruct (HumanSkeleton.joints s !! "pelvis") as [j|]; reflexivity.
Qed.

(** ** Masses and gravity *)

Lemma mass_percentages_range :
  map_Forall (λ _ p, 0.014 <= p <= 0.158) HumanSkeleton.mass_percentages.
Proof.
  unfold HumanSkeleton.mass_percentages. cbn [list_to_map foldr fst snd].
  repeat (apply map_Forall_insert_2; [lra |]).
  apply map_Forall_empty.
Qed.

Lemma segment_mass_range (s : HumanSkeleton.t) (nm : string) :
  0 < HumanSkeleton.body_mass s ->
  0.01 * HumanSkeleton.body_mass s
    <= HumanSkeleton.calculate_segment_mass s nm
    <= 0.158 * HumanSkeleton.body_mass s.
Proof.
  intros Hm. unfold HumanSkeleton.calculate_segment_mass.
  destruct (HumanSkeleton.mass_percentages !! nm) as [p|] eqn:Hp; cbn.
  - pose proof (mass_percentages_range nm p Hp) as Hr. cbn in Hr. nra.
  - nra.
Qed.

(** X18. For a positive body mass every segment gets a positive mass,
    whatever its name: between 1% and 15.8% of the body mass, and exactly 1%
    for a name the table does not list. *)
Theorem segment_mass_bounds (s : HumanSkeleton.t) (nm : string) :
  0 < HumanSkeleton.body_mass s ->
  0 < HumanSkeleton.calculate_segment_mass s nm /\
  0.01 * HumanSkeleton.body_mass s
    <= HumanSkeleton.calculate_segment_mass s nm
    <= 0.158 * HumanSkeleton.body_mass s /\
  (HumanSkeleton.mass_percentages !! nm = None ->
   HumanSkeleton.calculate_segment_mass s nm
   = 0.01 * HumanSkeleton.body_mass s).
Proof.
  intros Hm. pose proof (segment_mass_range s nm Hm) as Hr.
  split; [lra |]. split; [exact Hr |].
  intros Hnone. unfold HumanSkeleton.calculate_segment_mass.
  rewrite Hnone. cbn. lra.
Qed.

(** The theorem on the skeleton built at (600, 400) with scale 1 and the
    name "tail", which the table does not list. *)
Lemma segment_mass_bounds_witness :
  0 < HumanSkeleton.calculate_segment_mass (HumanSkeleton.init 600 400 1) "tail".
Proof.
  refine (proj1 (segment_mass_bounds (HumanSkeleton.init 600 400 1) "tail" _)).
  change (HumanSkeleton.body_mass (HumanSkeleton.init 600 400 1)) with 70.
  lra.
Defined.

(** A skeleton of positive body mass all of whose bones have positive
    mass. *)
Definition massive (s : HumanSkeleton.t) : Prop :=
  0 < HumanSkeleton.body_mass s /\
  Forall (λ b, 0 < Bone.mass b) (HumanSkeleton.bones s).

Lemma append_bone_mass (k1 k2 nm : string) (s : HumanSkeleton.t) :
  massive s -> massive (HumanSkeleton.append_bone k1 k2 nm s).
Proof.
  intros [Hm H]. split; [exact Hm |]. unfold HumanSkeleton.append_bone.
  cbn [HumanSkeleton.bones HumanSkeleton.set_bones].
  apply Forall_app. split; [exact H |].
  apply Forall_singleton. unfold HumanSkeleton.create_bone, Bone.init. cbn.
  pose proof (segment_mass_range s nm Hm). lra.
Qed.

Lemma create_bones_mass (s : HumanSkeleton.t) :
  massive s -> massive (HumanSkeleton.create_bones s).
Proof.
  intros Hs. unfold HumanSkeleton.create_bones. cbv zeta.
  repeat apply append_bone_mass. exact Hs.
Qed.

Lemma init_masses (cx cy sc : R) :
  Forall (λ b, 0 < Bone.mass b)
    (HumanSkeleton.bones (HumanSkeleton.init cx cy sc)).
Proof.
  unfold HumanSkeleton.init. cbv zeta.
  refine (proj2 (create_bones_mass _ _)). split.
  - change (0 < 70). lra.
  - change (Forall (λ b, 0 < Bone.mass b) []). apply Forall_nil. exact I.
Qed.

Lemma fixed_part_bones (s s0 : HumanSkeleton.t) :
  fixed_part s = fixed_part s0 ->
  HumanSkeleton.bones s = HumanSkeleton.bones s0.
Proof. intros Hfix. exact (f_equal HumanSkeleton.bones Hfix). Qed.

Lemma reachable_bones (s : HumanSkeleton.t) :
  reachable s ->
  exists x0 y0 scale0 : R,
    HumanSkeleton.bones s
    = HumanSkeleton.bones (HumanSkeleton.init x0 y0 scale0).
Proof.
  intros Hs. destruct (reachable_fixed_part s Hs) as (x0 & y0 & sc & Hfix).
  exists x0, y0, sc. exact (fixed_part_bones s _ Hfix).
Qed.

Lemma gravity_share_nonneg (dt : R) (bs : list Bone.t) (k : string) :
  0 <= dt -> Forall (λ b, 0 < Bone.mass b) bs -> 0 <= gravity_share dt bs k.
Proof.
  intros Hdt. induction 1 as [|b bs Hb _ IH]; cbn [gravity_share]; [lra |].
  unfold gravity_increment, GRAVITY.
  repeat destruct (decide _); nra.
Qed.

Lemma gravity_share_pos (dt : R) (bs : list Bone.t) (k : string) :
  0 < dt -> Forall (λ b, 0 < Bone.mass b) bs ->
  Exists (λ b, Bone.joint1 b = k \/ Bone.joint2 b = k) bs ->
  0 < gravity_share dt bs k.
Proof.
  intros Hdt Hall Hex.
  induction Hall as [|b bs Hb Hall IH]; [inversion Hex |].
  cbn [gravity_share].
  pose proof (gravity_share_nonneg dt bs k (Rlt_le _ _ Hdt) Hall) as Hnn.
  assert (Hinc : 0 < gravity_increment dt b)
    by (unfold gravity_increment, GRAVITY; nra).
  apply Exists_cons in Hex as [[H1 | H2] | Hex].
  - destruct (decide (Bone.joint1 b = k)); [| contradiction].
    destruct (decide (Bone.joint2 b = k)); lra.
  - destruct (decide (Bone.joint2 b = k)); [| contradiction].
    destruct (decide (Bone.joint1 b = k)); lra.
  - specialize (IH Hex). repeat destruct (decide _); lra.
Qed.

Lemma gravity_joints (dt : R) (s : HumanSkeleton.t) :
  HumanSkeleton.joints (HumanSkeleton.apply_gravity_to_bones dt s)
  = gravity_pass dt (HumanSkeleton.bones s) (HumanSkeleton.joints s).
Proof.
  unfold HumanSkeleton.apply_gravity_to_bones.
  cbn [HumanSkeleton.joints HumanSkeleton.set_joints].
  apply gravity_pass_foldl.
Qed.

Lemma every_joint_ends_a_bone :
  Forall (λ k : string,
            Exists (λ e : string * string * string, e.1.1 = k \/ e.1.2 = k)
              bone_layout) joint_names.
Proof. apply (bool_decide_unpack _). vm_compute. exact I. Qed.

(** X20. In every state the program reaches, every bone has a positive
    mass and every joint ends at least one bone, so gravity with a positive
    [dt] strictly increases the vertical velocity of every joint (downwards
    on the screen) and changes nothing else about it. *)
Theorem gravity_accelerates_every_joint (dt : R) (s : HumanSkeleton.t) :
  reachable s -> 0 < dt ->
  Forall (λ b, 0 < Bone.mass b) (HumanSkeleton.bones s) /\
  forall (k : string) (j : Joint.t),
    HumanSkeleton.joints s !! k = Some j ->
    exists dv : R,
      0 < dv /\
      HumanSkeleton.joints (HumanSkeleton.apply_gravity_to_bones dt s) !! k
      = Some (Joint.mk (Joint.x j) (Joint.y j) (Joint.vx j) (Joint.vy j + dv)
                (Joint.name j) (Joint.angle_limits j)).
Proof.
  intros Hs Hdt.
  assert (Hmass : Forall (λ b, 0 < Bone.mass b) (HumanSkeleton.bones s)).
  { destruct (reachable_bones s Hs) as (x0 & y0 & sc & ->).
    apply init_masses. }
  split; [exact Hmass |].
  intros k j Hk.
  exists (gravity_share dt (HumanSkeleton.bones s) k). split.
  - apply gravity_share_pos; [exact Hdt | exact Hmass |].
    assert (Hin : k ∈ joint_names).
    { apply (elem_of_list_to_set (C := gset string)).
      rewrite <- (reachable_keys s Hs). apply elem_of_dom. eexists; exact Hk. }
    pose proof (proj1 (Forall_forall _ _) every_joint_ends_a_bone k Hin) as Hex.
    destruct (reachable_gains s Hs) as (_ & _ & _ & _ & Hl).
    rewrite <- Hl in Hex. unfold layout_of in Hex.
    apply Exists_fmap in Hex. exact Hex.
  - rewrite gravity_joints, gravity_pass_lookup, Hk. reflexivity.
Qed.

(** The theorem on the skeleton built at (600, 400) with scale 1 and a
    frame of 1/60 s. *)
Lemma gravity_accelerates_every_joint_witness :
  Forall (λ b, 0 < Bone.mass b)
    (HumanSkeleton.bones (HumanSkeleton.init 600 400 1)).
Proof.
  refine (proj1 (gravity_accelerates_every_joint (1 / 60)
                   (HumanSkeleton.init 600 400 1) (reach_init 600 400 1) _)).
  lra.
Defined.

(** ** Positions within a frame *)

(** Where a joint is. *)
Definition position (j : Joint.t) : R * R := (Joint.x j, Joint.y j).

Lemma position_total (σ σ' : Store) (k : string) :
  position <$> σ = position <$> σ' ->
  Joint.x (σ !!! k) = Joint.x (σ' !!! k) /\
  Joint.y (σ !!! k) = Joint.y (σ' !!! k).
Proof.
  intros H. pose proof (f_equal (.!! k) H) as Hk. cbn in Hk.
  rewrite !lookup_fmap in Hk. rewrite !lookup_total_alt.
  destruct (σ !! k) as [j|], (σ' !! k) as [j'|]; cbn in Hk;
    try discriminate; [| split; reflexivity].
  injection Hk as Hx Hy. split; assumption.
Qed.

Lemma position_alter_congr (f f' : Joint.t -> Joint.t) (k : string)
    (σ σ' : Store) :
  position <$> σ = position <$> σ' ->
  (forall j j' : Joint.t, position j = position j' ->
                          position (f j) = position (f' j')) ->
  position <$> alter f k σ = position <$> alter f' k σ'.
Proof.
  intros H Hf. apply map_eq. intros k'.
  pose proof (f_equal (.!! k') H) as Hk. cbn in Hk.
  rewrite !lookup_fmap in Hk. rewrite !lookup_fmap.
  destruct (decide (k = k')) as [->|Hne].
  - rewrite !lookup_alter_eq.
    destruct (σ !! k') as [j|], (σ' !! k') as [j'|]; cbn in *;
      try discriminate; [| reflexivity].
    f_equal. apply Hf. injection Hk as Hx Hy. unfold position. congruence.
  - rewrite !lookup_alter_ne by exact Hne. exact Hk.
Qed.

(** The distance constraint reads and writes positions only. *)
Lemma position_length_constraint (b : Bone.t) (σ σ' : Store) :
  position <$> σ = position <$> σ' ->
  position <$> Bone.apply_length_constraint b σ
  = position <$> Bone.apply_length_constraint b σ'.
Proof.
  intros H. unfold Bone.apply_length_constraint. cbv zeta.
  destruct (position_total σ σ' (Bone.joint1 b) H) as [-> ->].
  destruct (position_total σ σ' (Bone.joint2 b) H) as [-> ->].
  destruct (decide _); [| exact H].
  repeat apply position_alter_congr; try exact H;
    intros j j' Hj; injection Hj as Hx Hy;
    unfold position, Joint.set_x, Joint.set_y; cbn; congruence.
Qed.

Lemma position_distance_pass (bs : list Bone.t) (σ σ' : Store) :
  position <$> σ = position <$> σ' ->
  position <$> distance_pass bs σ = position <$> distance_pass bs σ'.
Proof.
  revert σ σ'. induction bs as [|b bs IH]; intros σ σ' H; [exact H |].
  cbn [distance_pass]. apply IH, position_length_constraint, H.
Qed.

Lemma position_angle_pass (bs : list Bone.t) (pairs : list (string * string))
    (σ : Store) :
  position <$> angle_pass bs pairs σ = position <$> σ.
Proof.
  revert σ. induction pairs as [|e pairs IH]; intros σ; [reflexivity |].
  cbn [angle_pass]. rewrite IH. unfold angle_step.
  destruct (find_bone e.1 bs) as [c|]; [| reflexivity].
  destruct (find_bone e.2 bs) as [p|]; [| reflexivity].
  destruct (angle_constraint_shape c (Some p) σ) as [-> | (fx & fy & ->)];
    [reflexivity |].
  apply alter_keeps. reflexivity.
Qed.

Lemma position_gravity_pass (dt : R) (bs : list Bone.t) (σ : Store) :
  position <$> gravity_pass dt bs σ = position <$> σ.
Proof.
  revert σ. induction bs as [|b bs IH]; intros σ; [reflexivity |].
  cbn [gravity_pass]. rewrite IH. unfold add_velocity_y.
  rewrite !(alter_keeps position) by reflexivity. reflexivity.
Qed.

Lemma position_relaxation (bs : list Bone.t) (σ σ' : Store) :
  position <$> σ = position <$> σ' ->
  position <$> relaxation bs σ = position <$> distance_pass bs σ'.
Proof.
  intros H. unfold relaxation. rewrite position_angle_pass.
  apply position_distance_pass, H.
Qed.

(** X21. Where the joints are after an update is decided by where the
    integration put them and by the distance constraints alone: neither
    gravity nor any angle constraint of the same frame moves a joint (both
    write velocities, which only the next frame's integration reads), and
    the force generators do not move one either. *)
Theorem positions_after_update (dt : R) (s : HumanSkeleton.t) :
  let bs := HumanSkeleton.bones s in
  let integrated := Joint.update dt <$> HumanSkeleton.joints (force_phase dt s) in
  position <$> HumanSkeleton.joints (HumanSkeleton.update dt s)
  = position <$> distance_pass bs (distance_pass bs (distance_pass bs integrated))
  /\
  position <$> HumanSkeleton.joints (force_phase dt s)
  = position <$> HumanSkeleton.joints s.
Proof.
  cbv zeta. split.
  - rewrite update_joints.
    do 3 apply position_relaxation.
    apply position_gravity_pass.
  - unfold force_phase. destruct (HumanSkeleton.walking s).
    + rewrite walking_joints. cbv zeta.
      rewrite !(alter_keeps position) by reflexivity. reflexivity.
    + rewrite standing_joints. cbv zeta.
      assert (Hfoot : forall (g : R) (k : string) (σ : Store),
                position <$> alter (foot_rule g) k σ = position <$> σ).
      { intros g k σ. apply alter_keeps. intros j. unfold foot_rule.
        destruct (decide _); reflexivity. }
      destruct (decide _);
        rewrite !(alter_keeps position (Joint.apply_force _ _)) by reflexivity;
        rewrite !Hfoot; reflexivity.
Qed.

(** ** Start and stop *)

Lemma standing_phase_kept (dt : R) (n : nat) (s : HumanSkeleton.t) :
  HumanSkeleton.walking s = false ->
  HumanSkeleton.walking (Nat.iter n (HumanSkeleton.update dt) s) = false /\
  HumanSkeleton.walk_cycle_time (Nat.iter n (HumanSkeleton.update dt) s)
  = HumanSkeleton.walk_cycle_time s.
Proof.
  intros Hw. induction n as [|n [IHw IHc]]; [split; [exact Hw | reflexivity] |].
  rewrite Nat.iter_succ.
  destruct (update_phase dt (Nat.iter n (HumanSkeleton.update dt) s))
    as (Hw' & _ & Hc').
  rewrite Hw', Hc', IHw. split; [reflexivity | exact IHc].
Qed.

(** X22. The start and stop signals write the walking flag and nothing
    else, and a skeleton that is stopped, updated for any number of frames
    and started again resumes its gait at the phase it was stopped at. *)
Theorem gait_resumes_where_it_stopped (dt : R) (n : nat) (s : HumanSkeleton.t) :
  let resumed :=
    HumanSkeleton.start_walking
      (Nat.iter n (HumanSkeleton.update dt) (HumanSkeleton.stop_walking s)) in
  HumanSkeleton.walking resumed = true /\
  HumanSkeleton.walk_cycle_time resumed = HumanSkeleton.walk_cycle_time s /\
  HumanSkeleton.joints (HumanSkeleton.start_walking s) = HumanSkeleton.joints s /\
  HumanSkeleton.joints (HumanSkeleton.stop_walking s) = HumanSkeleton.joints s /\
  HumanSkeleton.walk_cycle_time (HumanSkeleton.start_walking s)
  = HumanSkeleton.walk_cycle_time s /\
  HumanSkeleton.walk_cycle_time (HumanSkeleton.stop_walking s)
  = HumanSkeleton.walk_cycle_time s /\
  fixed_part (HumanSkeleton.start_walking s) = fixed_part s /\
  fixed_part (HumanSkeleton.stop_walking s) = fixed_part s.
Proof.
  cbv zeta. split; [reflexivity |]. split; [| repeat split].
  change (HumanSkeleton.walk_cycle_time
            (Nat.iter n (HumanSkeleton.update dt) (HumanSkeleton.stop_walking s))
          = HumanSkeleton.walk_cycle_time (HumanSkeleton.stop_walking s)).
  apply standing_phase_kept. reflexivity.
Qed.
